(** * Todo-List: the task store of [script.js]

    A shallow embedding of the [TaskManager] class of [src/script.js]
    (the task store) and of the platform functions it calls
    ([String.prototype.trim], [JSON.stringify], [JSON.parse],
    [localStorage], [Math.max], [Math.round] and binary64 arithmetic),
    then of [getPriorityClass] and of the handlers of the pages that call
    the store, followed by the properties of the store and of the
    handlers.

    Conventions of the model.
    - A JavaScript string is its sequence of UTF-16 code units.
    - A Number that the store uses as an id or a count is an integer of
      [Z]; this is exact for binary64 below 2^53.  The computation on
      fractions, the completion rate, and the increment of the counter,
      which stops at 2^53, are done in binary64, which is modelled by
      rounding exact rationals ([round64]).
    - A task is the object literal that [addTask] builds, read as a record;
      a property that is not there reads as [VUndefined].
    - The clock ([new Date().toISOString()]) is an argument [now] of the
      operations that read it.
    - [localStorage] is a finite map from keys to strings, without quota.
    - A handler of a page is the list of the calls it makes on the page,
      in their order, and the state in which it leaves the store; the
      elements that the handler uses are there. *)

From stdpp Require Import base option list gmap strings.
From Stdlib Require Import ZArith QArith Qround Qpower Lia Lqa.
From Stdlib Require Import Ascii DecimalString.
From Stdlib Require PrimFloat Uint63 SpecFloat FloatOps.
From Stdlib Require DecimalFacts DecimalPos.
From stdpp Require Import sorting.

#[local] Set Warnings "-notation-for-abbreviation,-register-all".

Local Open Scope Z_scope.

(** ** Strings *)

(** A JavaScript string: UTF-16 code units. *)
Notation jsstring := (list N).

(** The code units of an ASCII literal. *)
Definition js (s : string) : jsstring :=
  N_of_ascii <$> String.list_ascii_of_string s.

(** [WhiteSpace] and [LineTerminator] of ECMAScript, the code points that
    [trim] strips. *)
Definition isWhiteSpace (c : N) : bool :=
  ((c =? 9) || (c =? 10) || (c =? 11) || (c =? 12) || (c =? 13) || (c =? 32)
   || (c =? 160) || (c =? 5760) || ((8192 <=? c) && (c <=? 8202))
   || (c =? 8232) || (c =? 8233) || (c =? 8239) || (c =? 8287)
   || (c =? 12288) || (c =? 65279))%N.

Fixpoint trimStart (s : jsstring) : jsstring :=
  match s with
  | c :: r => if isWhiteSpace c then trimStart r else s
  | [] => []
  end.

Definition trimEnd (s : jsstring) : jsstring := rev (trimStart (rev s)).

(** [String.prototype.trim]. *)
Definition trim (s : jsstring) : jsstring := trimEnd (trimStart s).

(** ** Values *)

(** The scalar values a task property can hold. *)
Inductive value :=
  | VUndefined
  | VNull
  | VBool (b : bool)
  | VNum (n : Z)
  | VStr (s : jsstring).

Global Instance value_eq_dec : EqDecision value.
Proof. solve_decision. Defined.

(** A parameter with a default value: the default is taken when the
    argument is [undefined] (absent), and only then. *)
Definition default_param (arg dflt : value) : value :=
  match arg with VUndefined => dflt | _ => arg end.

(** Exceptions. *)
Inductive exn :=
  | SyntaxError
  | Error (message : jsstring).

(** The completion of a call: it returns or it throws. *)
Inductive completion (A : Type) :=
  | Return (a : A)
  | Throw (e : exn).
Arguments Return {A} a.
Arguments Throw {A} e.

(** The outcome of a computation that the model covers in part:
    [Unmodelled] says nothing about what the program does. *)
Inductive outcome (A : Type) :=
  | Ok (a : A)
  | Raise (e : exn)
  | Unmodelled.
Arguments Ok {A} a.
Arguments Raise {A} e.
Arguments Unmodelled {A}.

Global Instance outcome_bind : MBind outcome := fun A B f m =>
  match m with
  | Ok a => f a
  | Raise e => Raise e
  | Unmodelled => Unmodelled
  end.

(** ** JSON *)

(** JSON texts as trees.  An object keeps its members in the order of the
    text. *)
Inductive json :=
  | JNull
  | JBool (b : bool)
  | JNum (n : Z)
  | JStr (s : jsstring)
  | JArr (l : list json)
  | JObj (l : list (jsstring * json)).

(** Decimal digits of an integer, [Number::toString] on integers. *)
Definition number_to_string (n : Z) : jsstring :=
  js (NilZero.string_of_int (Z.to_int n)).

Definition hex_digit (n : N) : N :=
  (if n <? 10 then 48 + n else 87 + n)%N.

(** [\uXXXX], lower-case hexadecimal. *)
Definition unicode_escape (c : N) : jsstring :=
  [92; 117; hex_digit (c / 4096 mod 16); hex_digit (c / 256 mod 16);
   hex_digit (c / 16 mod 16); hex_digit (c mod 16)]%N.

Definition is_lead_surrogate (c : N) : bool := ((55296 <=? c) && (c <=? 56319))%N.
Definition is_trail_surrogate (c : N) : bool := ((56320 <=? c) && (c <=? 57343))%N.

(** [QuoteJSONString] without the surrounding quotes. *)
Fixpoint quote_chars (s : jsstring) : jsstring :=
  match s with
  | [] => []
  | c :: r =>
      if (c =? 8)%N then js "\b" ++ quote_chars r
      else if (c =? 9)%N then js "\t" ++ quote_chars r
      else if (c =? 10)%N then js "\n" ++ quote_chars r
      else if (c =? 12)%N then js "\f" ++ quote_chars r
      else if (c =? 13)%N then js "\r" ++ quote_chars r
      else if (c =? 34)%N then [92; 34]%N ++ quote_chars r
      else if (c =? 92)%N then [92; 92]%N ++ quote_chars r
      else if (c <? 32)%N then unicode_escape c ++ quote_chars r
      else if is_lead_surrogate c then
        match r with
        | d :: r' =>
            if is_trail_surrogate d then c :: d :: quote_chars r'
            else unicode_escape c ++ quote_chars r
        | [] => unicode_escape c
        end
      else if is_trail_surrogate c then unicode_escape c ++ quote_chars r
      else c :: quote_chars r
  end.

Definition QuoteJSONString (s : jsstring) : jsstring :=
  [34%N] ++ quote_chars s ++ [34%N].

Fixpoint join_comma (l : list jsstring) : jsstring :=
  match l with
  | [] => []
  | [x] => x
  | x :: r => x ++ [44%N] ++ join_comma r
  end.

(** [JSON.stringify] on a JSON tree. *)
Fixpoint JSON_stringify (j : json) : jsstring :=
  match j with
  | JNull => js "null"
  | JBool true => js "true"
  | JBool false => js "false"
  | JNum n => number_to_string n
  | JStr s => QuoteJSONString s
  | JArr l => [91%N] ++ join_comma (map JSON_stringify l) ++ [93%N]
  | JObj l =>
      [123%N]
      ++ join_comma
           (map (fun m => QuoteJSONString (fst m) ++ [58%N] ++ JSON_stringify (snd m)) l)
      ++ [125%N]
  end.

(** *** [JSON.parse]

    A recursive-descent reader of the JSON grammar.  It reads integer
    literals of the exact range of binary64; on a number with a fraction or
    an exponent, on [-0] and on larger integers the result is [Unmodelled].
    [Raise SyntaxError] is returned only where [JSON.parse] throws. *)

Definition is_json_ws (c : N) : bool :=
  ((c =? 32) || (c =? 9) || (c =? 10) || (c =? 13))%N.

Fixpoint skip_ws (s : jsstring) : jsstring :=
  match s with
  | c :: r => if is_json_ws c then skip_ws r else s
  | [] => []
  end.

(** The rest of [s] after the token [c], white space skipped before it. *)
Definition expect (c : N) (s : jsstring) : option jsstring :=
  match skip_ws s with
  | d :: r => if (c =? d)%N then Some r else None
  | [] => None
  end.

Fixpoint strip_prefix (p s : jsstring) : option jsstring :=
  match p, s with
  | [], _ => Some s
  | c :: p', d :: s' => if (c =? d)%N then strip_prefix p' s' else None
  | _ :: _, [] => None
  end.

Definition is_digit (c : N) : bool := ((48 <=? c) && (c <=? 57))%N.

Definition hex_value (c : N) : option N :=
  (if is_digit c then Some (c - 48)
   else if (97 <=? c) && (c <=? 102) then Some (c - 87)
   else if (65 <=? c) && (c <=? 70) then Some (c - 55)
   else None)%N.

Definition hex4 (a b c d : N) : option N :=
  a ← hex_value a; b ← hex_value b; c ← hex_value c; d ← hex_value d;
  Some (4096 * a + 256 * b + 16 * c + d)%N.

(** The character a one-letter escape stands for. *)
Definition simple_escape (c : N) : option N :=
  (if c =? 34 then Some 34 else if c =? 92 then Some 92
   else if c =? 47 then Some 47 else if c =? 98 then Some 8
   else if c =? 102 then Some 12 else if c =? 110 then Some 10
   else if c =? 114 then Some 13 else if c =? 116 then Some 9
   else None)%N.

(** The characters of a string literal, after its opening quote. *)
Fixpoint parse_string_chars (s : jsstring) : outcome (jsstring * jsstring) :=
  match s with
  | [] => Raise SyntaxError
  | c :: r =>
      if (c =? 34)%N then Ok ([], r)
      else if (c =? 92)%N then
        match r with
        | [] => Raise SyntaxError
        | e :: r1 =>
            if (e =? 117)%N then
              match r1 with
              | h1 :: h2 :: h3 :: h4 :: r2 =>
                  match hex4 h1 h2 h3 h4 with
                  | Some u =>
                      '(str, rest) ← parse_string_chars r2; Ok (u :: str, rest)
                  | None => Raise SyntaxError
                  end
              | _ => Raise SyntaxError
              end
            else
              match simple_escape e with
              | Some u =>
                  '(str, rest) ← parse_string_chars r1; Ok (u :: str, rest)
              | None => Raise SyntaxError
              end
        end
      else if (c <? 32)%N then Raise SyntaxError
      else '(str, rest) ← parse_string_chars r; Ok (c :: str, rest)
  end.

Fixpoint parse_digits (acc : Z) (s : jsstring) : Z * jsstring :=
  match s with
  | c :: r =>
      if is_digit c then parse_digits (10 * acc + (Z.of_N c - 48)) r
      else (acc, s)
  | [] => (acc, [])
  end.

Definition MAX_SAFE_INTEGER : Z := 2 ^ 53 - 1.

(** What follows the integer part [n] of a number. *)
Definition finish_number (neg : bool) (n : Z) (r : jsstring)
    : outcome (json * jsstring) :=
  let fraction_or_exponent :=
    match r with
    | c :: _ => ((c =? 46) || (c =? 101) || (c =? 69))%N
    | [] => false
    end in
  if fraction_or_exponent then Unmodelled
  else if neg && (n =? 0) then Unmodelled
  else if MAX_SAFE_INTEGER <? n then Unmodelled
  else Ok (JNum (if neg then - n else n), r).

Definition parse_number (s : jsstring) : outcome (json * jsstring) :=
  let '(neg, s1) :=
    match s with
    | c :: r => if (c =? 45)%N then (true, r) else (false, s)
    | [] => (false, s)
    end in
  match s1 with
  | c :: r =>
      if (c =? 48)%N then finish_number neg 0 r
      else if is_digit c then
        let '(n, r') := parse_digits 0 s1 in finish_number neg n r'
      else Raise SyntaxError
  | [] => Raise SyntaxError
  end.

Fixpoint parse_value (fuel : nat) (s : jsstring) : outcome (json * jsstring) :=
  match fuel with
  | O => Unmodelled
  | S fuel =>
      match skip_ws s with
      | [] => Raise SyntaxError
      | c :: r =>
          if (c =? 34)%N then
            '(str, rest) ← parse_string_chars r; Ok (JStr str, rest)
          else if (c =? 91)%N then
            match expect 93 r with
            | Some rest => Ok (JArr [], rest)
            | None => '(l, rest) ← parse_elements fuel r; Ok (JArr l, rest)
            end
          else if (c =? 123)%N then
            match expect 125 r with
            | Some rest => Ok (JObj [], rest)
            | None => '(l, rest) ← parse_members fuel r; Ok (JObj l, rest)
            end
          else if (c =? 45)%N || is_digit c then parse_number (c :: r)
          else
            match strip_prefix (js "null") (c :: r) with
            | Some rest => Ok (JNull, rest)
            | None =>
            match strip_prefix (js "true") (c :: r) with
            | Some rest => Ok (JBool true, rest)
            | None =>
            match strip_prefix (js "false") (c :: r) with
            | Some rest => Ok (JBool false, rest)
            | None => Raise SyntaxError
            end end end
      end
  end
with parse_elements (fuel : nat) (s : jsstring)
    : outcome (list json * jsstring) :=
  match fuel with
  | O => Unmodelled
  | S fuel =>
      '(v, r) ← parse_value fuel s;
      match expect 44 r with
      | Some r1 => '(vs, rest) ← parse_elements fuel r1; Ok (v :: vs, rest)
      | None =>
          match expect 93 r with
          | Some rest => Ok ([v], rest)
          | None => Raise SyntaxError
          end
      end
  end
with parse_members (fuel : nat) (s : jsstring)
    : outcome (list (jsstring * json) * jsstring) :=
  match fuel with
  | O => Unmodelled
  | S fuel =>
      match expect 34 s with
      | None => Raise SyntaxError
      | Some r =>
          '(k, r1) ← parse_string_chars r;
          match expect 58 r1 with
          | None => Raise SyntaxError
          | Some r2 =>
              '(v, r3) ← parse_value fuel r2;
              match expect 44 r3 with
              | Some r4 =>
                  '(ms, rest) ← parse_members fuel r4; Ok ((k, v) :: ms, rest)
              | None =>
                  match expect 125 r3 with
                  | Some rest => Ok ([(k, v)], rest)
                  | None => Raise SyntaxError
                  end
              end
          end
      end
  end.

(** [JSON.parse(text)]: one value, white space around it, nothing else. *)
Definition JSON_parse (text : jsstring) : outcome json :=
  '(v, r) ← parse_value (2 * List.length text + 2) text;
  match skip_ws r with
  | [] => Ok v
  | _ :: _ => Raise SyntaxError
  end.

(** ** Numbers: binary64 *)

(** A finite binary64 value is the rational it denotes.  An arithmetic
    operation gives the exact result rounded to nearest, ties to even, at 53
    bits of precision ([round64]); the quantum is [2^(e-52)] where [e] is
    the exponent of the exact result, at least -1022 (subnormals).
    Overflow to infinity is not modelled: the values of [getStats] are at
    most 100, and the counter of a session is at most [2^53]. *)

(** Round to the nearest integer, ties to even. *)
Definition round_ties_even (x : Q) : Z :=
  let f := Qfloor x in
  match (x - inject_Z f ?= 1 # 2)%Q with
  | Lt => f
  | Gt => f + 1
  | Eq => if Z.even f then f else f + 1
  end.

(** [floor (log2 x)] for [0 < x]. *)
Definition ilog2 (x : Q) : Z :=
  let e := Z.log2 (Qnum x) - Z.log2 (Zpos (Qden x)) in
  if Qle_bool (2 ^ e)%Q x then e else e - 1.

Definition round64_pos (x : Q) : Q :=
  let e := Z.max (ilog2 x) (-1022) in
  (inject_Z (round_ties_even (x * 2 ^ (52 - e))) * 2 ^ (e - 52))%Q.

Definition round64 (x : Q) : Q :=
  match (x ?= 0)%Q with
  | Eq => 0%Q
  | Gt => round64_pos x
  | Lt => (- round64_pos (- x))%Q
  end.

Definition div64 (x y : Q) : Q := round64 (x / y).
Definition mul64 (x y : Q) : Q := round64 (x * y).

(** [Math.round]: the nearest integer, a tie going up. *)
Definition Math_round (x : Q) : Z := Qfloor (x + (1 # 2)).

(** The rational a finite value of the kernel's binary64 denotes. *)
Definition float_value (f : PrimFloat.float) : option Q :=
  match FloatOps.Prim2SF f with
  | SpecFloat.S754_zero _ => Some 0%Q
  | SpecFloat.S754_finite s m e =>
      Some ((if s then -1 else 1) * inject_Z (Zpos m) * 2 ^ e)%Q
  | _ => None
  end.

(** [(c / t) * 100] in the kernel's binary64. *)
Definition percent_float (c t : Z) : option Q :=
  float_value
    (PrimFloat.mul
       (PrimFloat.div (PrimFloat.of_uint63 (Uint63.of_Z c))
          (PrimFloat.of_uint63 (Uint63.of_Z t)))
       (PrimFloat.of_uint63 (Uint63.of_Z 100))).

Definition add64 (x y : Q) : Q := round64 (x + y).

(** [n++] on the counter: the counter becomes the binary64 sum [n + 1].
    For a binary64 value [n] the sum is not below [n]: it is [n + 1] up to
    [2^53 - 1], and at [2^53] it is [2^53] again, since [2^53 + 1] is no
    binary64 value and the tie goes to the even neighbour.  The maximum
    says the same for the integers of [Z] that are no binary64 value. *)
Definition increment (n : Z) : Z :=
  Z.max n (Qfloor (add64 (inject_Z n) 1)).
Arguments increment : simpl never.

(** ** Tasks *)

(** The task object: the properties of the literal in [addTask], and
    [completedAt], which [toggleTaskCompletion] adds. *)
Module Task.
Record t := mk {
  id : Z;
  text : jsstring;
  completed : bool;
  date : value;
  priority : value;
  createdAt : jsstring;
  completedAt : value;
}.
End Task.
Notation Task := Task.t.

Global Instance Task_eq_dec : EqDecision Task.
Proof. solve_decision. Defined.

(** A property as a member of the serialized object; a property whose
    value is [undefined] is left out by [JSON.stringify]. *)
Definition member (key : string) (v : value) : list (jsstring * json) :=
  match v with
  | VUndefined => []
  | VNull => [(js key, JNull)]
  | VBool b => [(js key, JBool b)]
  | VNum n => [(js key, JNum n)]
  | VStr s => [(js key, JStr s)]
  end.

(** The members of a task in the order its properties were created. *)
Definition taskMembers (task : Task) : list (jsstring * json) :=
  [(js "id", JNum (Task.id task));
   (js "text", JStr (Task.text task));
   (js "completed", JBool (Task.completed task))]
  ++ member "date" (Task.date task)
  ++ member "priority" (Task.priority task)
  ++ [(js "createdAt", JStr (Task.createdAt task))]
  ++ member "completedAt" (Task.completedAt task).

Definition taskToJSON (task : Task) : json := JObj (taskMembers task).

(** [JSON.stringify(this.tasks)]. *)
Definition serialize (tasks : list Task) : jsstring :=
  JSON_stringify (JArr (taskToJSON <$> tasks)).

Definition scalar (j : json) : option value :=
  match j with
  | JNull => Some VNull
  | JBool b => Some (VBool b)
  | JNum n => Some (VNum n)
  | JStr s => Some (VStr s)
  | JArr _ | JObj _ => None
  end.

(** Reading a parsed object as a task.  Only the shape that [saveTasks]
    writes is read; any other stored shape is outside the model. *)
Definition decodeTask (j : json) : option Task :=
  match j with
  | JObj [(k1, JNum i); (k2, JStr tx); (k3, JBool c); (k4, d); (k5, p);
          (k6, JStr ca)] =>
      if bool_decide ([k1; k2; k3; k4; k5; k6]
                      = js <$> ["id"; "text"; "completed"; "date"; "priority";
                                "createdAt"]%string)
      then d ← scalar d; p ← scalar p;
           Some (Task.mk i tx c d p ca VUndefined)
      else None
  | JObj [(k1, JNum i); (k2, JStr tx); (k3, JBool c); (k4, d); (k5, p);
          (k6, JStr ca); (k7, x)] =>
      if bool_decide ([k1; k2; k3; k4; k5; k6; k7]
                      = js <$> ["id"; "text"; "completed"; "date"; "priority";
                                "createdAt"; "completedAt"]%string)
      then d ← scalar d; p ← scalar p; x ← scalar x;
           Some (Task.mk i tx c d p ca x)
      else None
  | _ => None
  end.

Definition decodeTasks (j : json) : option (list Task) :=
  match j with
  | JArr l => mapM decodeTask l
  | _ => None
  end.

(** ** The task manager *)

(** The state of a page: the two fields of the [TaskManager] object and the
    [localStorage] it reads and writes. *)
Record TaskManager := {
  tasks : list Task;
  nextId : Z;
  localStorage : gmap string jsstring;
}.

(** [loadTasks]: [tasks ? JSON.parse(tasks) : []], where [getItem] gives
    [null] for a key that is not there and the empty string is falsy. *)
Definition loadTasks (storage : gmap string jsstring) : outcome json :=
  match storage !! "tasks"%string with
  | Some [] => Ok (JArr [])
  | Some tasks => JSON_parse tasks
  | None => Ok (JArr [])
  end.

(** [saveTasks]. *)
Definition saveTasks (this : TaskManager) : TaskManager :=
  {| tasks := tasks this;
     nextId := nextId this;
     localStorage := <["tasks"%string := serialize (tasks this)]> (localStorage this) |}.

(** [getNextId]: [Math.max] of the ids plus one, 1 for no task. *)
Definition getNextId (tasks : list Task) : Z :=
  match Task.id <$> tasks with
  | [] => 1
  | i :: ids => foldr Z.max i ids + 1
  end.

(** The constructor. An exception of [loadTasks] leaves it. *)
Definition new_TaskManager (storage : gmap string jsstring)
    : outcome TaskManager :=
  j ← loadTasks storage;
  match decodeTasks j with
  | Some tasks =>
      Ok {| tasks := tasks; nextId := getNextId tasks; localStorage := storage |}
  | None => Unmodelled
  end.

(** [addTask(text, date = null, priority = 'medium')]. *)
Definition addTask (text : jsstring) (date priority : value) (now : jsstring)
    (this : TaskManager) : completion Task * TaskManager :=
  let date := default_param date VNull in
  let priority := default_param priority (VStr (js "medium")) in
  match trim text with
  | [] => (Throw (Error (js "Task text cannot be empty")), this)
  | _ :: _ =>
      let newTask :=
        {| Task.id := nextId this;
           Task.text := trim text;
           Task.completed := false;
           Task.date := date;
           Task.priority := priority;
           Task.createdAt := now;
           Task.completedAt := VUndefined |} in
      let this :=
        {| tasks := tasks this ++ [newTask];
           nextId := increment (nextId this);
           localStorage := localStorage this |} in
      (Return newTask, saveTasks this)
  end.

Definition getAllTasks (this : TaskManager) : list Task := tasks this.

Definition getCompletedTasks (this : TaskManager) : list Task :=
  filter (fun task => Task.completed task = true) (tasks this).

Definition getPendingTasks (this : TaskManager) : list Task :=
  filter (fun task => Task.completed task <> true) (tasks this).

(** The two assignments of [toggleTaskCompletion]. *)
Definition toggle (now : jsstring) (task : Task) : Task :=
  let completed := negb (Task.completed task) in
  {| Task.id := Task.id task;
     Task.text := Task.text task;
     Task.completed := completed;
     Task.date := Task.date task;
     Task.priority := Task.priority task;
     Task.createdAt := Task.createdAt task;
     Task.completedAt := if completed then VStr now else VNull |}.

(** [toggleTaskCompletion(id)]; [find] gives the first task with
    [task.id === id], which is changed in place. [None] is [null]. *)
Definition toggleTaskCompletion (id : value) (now : jsstring)
    (this : TaskManager) : option Task * TaskManager :=
  match list_find (fun task => VNum (Task.id task) = id) (tasks this) with
  | Some (index, task) =>
      let task := toggle now task in
      let this :=
        {| tasks := <[index := task]> (tasks this);
           nextId := nextId this;
           localStorage := localStorage this |} in
      (Some task, saveTasks this)
  | None => (None, this)
  end.

(** [deleteTask(id)]; [splice(index, 1)] removes the task at [index]. *)
Definition deleteTask (id : value) (this : TaskManager)
    : option Task * TaskManager :=
  match list_find (fun task => VNum (Task.id task) = id) (tasks this) with
  | Some (index, deletedTask) =>
      let this :=
        {| tasks := delete index (tasks this);
           nextId := nextId this;
           localStorage := localStorage this |} in
      (Some deletedTask, saveTasks this)
  | None => (None, this)
  end.

(** [clearCompletedTasks]. *)
Definition clearCompletedTasks (this : TaskManager)
    : list Task * TaskManager :=
  let completedTasks := getCompletedTasks this in
  let this :=
    {| tasks := filter (fun task => Task.completed task <> true) (tasks this);
       nextId := nextId this;
       localStorage := localStorage this |} in
  (completedTasks, saveTasks this).

(** ** Statistics *)

Module Stats.
Record t := mk {
  total : Z;
  completed : Z;
  pending : Z;
  completionRate : Z;
}.
End Stats.
Notation Stats := Stats.t.

(** [getStats]. *)
Definition getStats (this : TaskManager) : Stats :=
  let total := Z.of_nat (List.length (tasks this)) in
  let completed :=
    Z.of_nat (List.length (filter (fun task => Task.completed task = true) (tasks this))) in
  let pending := total - completed in
  {| Stats.total := total;
     Stats.completed := completed;
     Stats.pending := pending;
     Stats.completionRate :=
       if 0 <? total
       then Math_round (mul64 (div64 (inject_Z completed) (inject_Z total)) 100)
       else 0 |}.

(** ** Sessions *)

(** The calls a page makes on the store. *)
Inductive op :=
  | AddTask (text : jsstring) (date priority : value) (now : jsstring)
  | ToggleTaskCompletion (id : value) (now : jsstring)
  | DeleteTask (id : value)
  | ClearCompletedTasks.

(** The state after a call; a call that throws or finds nothing leaves the
    state as the operation left it. *)
Definition step (o : op) (this : TaskManager) : TaskManager :=
  match o with
  | AddTask text date priority now => (addTask text date priority now this).2
  | ToggleTaskCompletion id now => (toggleTaskCompletion id now this).2
  | DeleteTask id => (deleteTask id this).2
  | ClearCompletedTasks => (clearCompletedTasks this).2
  end.

Definition run (ops : list op) (this : TaskManager) : TaskManager :=
  foldl (fun this o => step o this) this ops.

(** The states of a session: the store is constructed from what
    [localStorage] holds, then called any number of times. *)
Definition reachable (this : TaskManager) : Prop :=
  exists storage this0 ops,
    new_TaskManager storage = Ok this0 /\ this = run ops this0.

(** Every id in the store is below the counter. *)
Definition ids_below (this : TaskManager) : Prop :=
  Forall (fun task => Task.id task < nextId this) (tasks this).

(** The counter is in the range where [increment] adds one or stops. *)
Definition counter_range (this : TaskManager) : Prop :=
  - 2 ^ 53 <= nextId this <= 2 ^ 53.

(** Every id of the store is below the counter, or it is [2^53], where the
    counter has stopped. *)
Definition ids_upto (this : TaskManager) : Prop :=
  Forall (fun task => Task.id task < nextId this
                      \/ (Task.id task = 2 ^ 53 /\ nextId this = 2 ^ 53))
    (tasks this).

(** ** Notions the properties use *)

(** The item under ["tasks"] is the serialization of the whole collection. *)
Definition persisted (this : TaskManager) : Prop :=
  localStorage this !! "tasks"%string = Some (serialize (tasks this)).

(** The values the priority select offers and [getPriorityClass] names. *)
Definition recognized_priority (v : value) : Prop :=
  v = VStr (js "high") \/ v = VStr (js "medium") \/ v = VStr (js "low").

(** The property names of the serialized task. *)
Definition keys (task : Task) : list jsstring := (taskMembers task).*1.

Definition created_keys : list jsstring :=
  js <$> ["id"; "text"; "completed"; "date"; "priority"; "createdAt"]%string.

(** The member of the serialized task under a name. *)
Definition field (key : string) (task : Task) : option json :=
  match list_find (fun m => m.1 = js key) (taskMembers task) with
  | Some (_, (_, j)) => Some j
  | None => None
  end.

(** What can follow a number that [JSON.stringify] wrote. *)
Definition number_end (rest : jsstring) : Prop :=
  match rest with
  | [] => True
  | c :: _ => c = 44%N \/ c = 93%N \/ c = 125%N
  end.

(** The values of the properties of a task that the reader covers. *)
Definition scalar_ok (j : json) : Prop :=
  match j with
  | JNull | JBool _ | JStr _ => True
  | JNum n => - MAX_SAFE_INTEGER <= n <= MAX_SAFE_INTEGER
  | JArr _ | JObj _ => False
  end.

(** The text of the members of an object. *)
Definition members_text (ms : list (jsstring * json)) : jsstring :=
  join_comma
    (map (fun m => QuoteJSONString (fst m) ++ [58%N] ++ JSON_stringify (snd m)) ms).

(** The tasks the reader of the model reads back: numbers in the exact
    range, and the [date] and [priority] that [addTask] always sets. *)
Definition storable_value (v : value) : Prop :=
  match v with
  | VNum n => - MAX_SAFE_INTEGER <= n <= MAX_SAFE_INTEGER
  | _ => True
  end.

Definition storable (task : Task) : Prop :=
  - MAX_SAFE_INTEGER <= Task.id task <= MAX_SAFE_INTEGER
  /\ Task.date task <> VUndefined /\ storable_value (Task.date task)
  /\ Task.priority task <> VUndefined /\ storable_value (Task.priority task)
  /\ storable_value (Task.completedAt task).

(** The [date] and the [priority] of a task are there: [addTask] gives
    them a value, and the reader reads the tasks that have them. *)
Definition defined_fields (task : Task) : Prop :=
  Task.date task <> VUndefined /\ Task.priority task <> VUndefined.

(** The record of a task in the stored array has the properties of the
    literal of [addTask], or these and [completedAt]. *)
Definition record_shape (task : Task) : Prop :=
  (keys task = created_keys /\ field "completedAt" task = None)
  \/ (keys task = created_keys ++ [js "completedAt"]
      /\ is_Some (field "completedAt" task)).

(** [completedAt] as [toggleTaskCompletion] writes it: a string or
    [null], or no property. *)
Definition completedAt_written (task : Task) : Prop :=
  field "completedAt" task = None
  \/ field "completedAt" task = Some JNull
  \/ exists time, field "completedAt" task = Some (JStr time).

(** ** More notions the properties use *)

(** The store that the constructor builds from the [localStorage] of a
    state: the tasks of the state, and the counter computed from them. *)
Definition reloaded (this : TaskManager) : TaskManager :=
  {| tasks := tasks this;
     nextId := getNextId (tasks this);
     localStorage := localStorage this |}.

(** The properties that [addTask] gives a task and that no operation of
    the store assigns again. *)
Definition created (task : Task) : Z * jsstring * value * value * jsstring :=
  (Task.id task, Task.text task, Task.date task, Task.priority task,
   Task.createdAt task).

(** A completed task has the time of its completion, and a pending task
    has none. *)
Definition completedAt_set (task : Task) : Prop :=
  if Task.completed task then exists now, Task.completedAt task = VStr now
  else Task.completedAt task = VUndefined \/ Task.completedAt task = VNull.

(** ** Display *)

(** [ToString] of a scalar, which is the property name that
    [classes[priority]] looks up.  The digits of a number are the ones of
    [number_to_string]. *)
Definition ToString (v : value) : jsstring :=
  match v with
  | VUndefined => js "undefined"
  | VNull => js "null"
  | VBool true => js "true"
  | VBool false => js "false"
  | VNum n => number_to_string n
  | VStr s => s
  end.

(** The object literal of [getPriorityClass]. *)
Definition classes : list (jsstring * jsstring) :=
  [(js "high", js "priority-high");
   (js "medium", js "priority-medium");
   (js "low", js "priority-low")].

(** The names that an object literal inherits from [Object.prototype];
    what they hold is a function, or an object for [__proto__]. *)
Definition Object_prototype_names : list jsstring :=
  js <$> ["constructor"; "__defineGetter__"; "__defineSetter__";
          "hasOwnProperty"; "__lookupGetter__"; "__lookupSetter__";
          "isPrototypeOf"; "propertyIsEnumerable"; "toString"; "valueOf";
          "__proto__"; "toLocaleString"]%string.

(** [getPriorityClass(priority)]: [classes[priority] || 'priority-medium'].
    The class names are not empty, so an own property is returned as it is;
    for an inherited name the call returns what [Object.prototype] holds,
    which is not a string and is not modelled. *)
Definition getPriorityClass (priority : value) : outcome jsstring :=
  let key := ToString priority in
  match list_find (fun m => m.1 = key) classes with
  | Some (_, (_, class)) => Ok class
  | None =>
      if bool_decide (key ∈ Object_prototype_names) then Unmodelled
      else Ok (js "priority-medium")
  end.

(** ** The pages *)

(** What a handler does to the page, in the order of its calls.  The
    elements are the ones of the handler's closure: [taskItem], [taskText]
    and [completeBtn] of [createTaskElement]. *)
Inductive timer :=
  | SetLocation (href : jsstring)
  | Reload.

Inductive effect :=
  | PreventDefault
  | Confirm (message : jsstring)
  | ShowMessage (message type : jsstring)
  | FormReset
  | SetTimeout (callback : timer) (delay : Z)
  | TaskItem_classList_toggle (token : jsstring) (force : option bool)
  | TaskText_textDecoration (v : jsstring)
  | CompleteBtn_textContent (v : jsstring)
  | CompleteBtn_className (v : jsstring)
  | RenderStats (stats : Stats).

(** The [submit] handler of [initAddTask], for a page that has the form
    and its three fields.  The values of the fields are strings.  An
    exception of [addTask] is caught; the message of a [SyntaxError] is not
    modelled. *)
Definition submit (taskText taskDate taskPriority : jsstring)
    (now : jsstring) (this : TaskManager)
    : outcome (list effect * TaskManager) :=
  match addTask taskText (VStr taskDate) (VStr taskPriority) now this with
  | (Return _, this) =>
      Ok ([PreventDefault;
           ShowMessage (js "Task added successfully!") (js "success");
           FormReset;
           SetTimeout (SetLocation (js "tasks.html")) 1000], this)
  | (Throw (Error message), this) =>
      Ok ([PreventDefault; ShowMessage message (js "error")], this)
  | (Throw SyntaxError, _) => Unmodelled
  end.

(** The [click] handler of the button of [initCompleted]; [confirmed] is
    what [window.confirm] returns. *)
Definition clear_click (confirmed : bool) (this : TaskManager)
    : list effect * TaskManager :=
  let question :=
    Confirm (js "Are you sure you want to clear all completed tasks?") in
  if confirmed then
    let '(deletedTasks, this) := clearCompletedTasks this in
    ([question;
      ShowMessage
        (js "Cleared " ++ number_to_string (Z.of_nat (List.length deletedTasks))
         ++ js " completed tasks")
        (js "success");
      SetTimeout Reload 1000], this)
  else ([question], this).

(** The handlers of a task element hold the task object [task] that
    [createTaskElement] was given.  It is the object of the store:
    [renderTasks] gets the array of the store or a filter of it, and no
    operation copies a task.  An object of the store is known by its place:
    [index] is where the store has [task] when the event comes, and after
    [toggleTaskCompletion], which moves no task, [task] is read there
    again.  The handlers are not modelled ([None]) for an object that the
    store does not have.  [on_tasks_page] is
    [window.location.pathname.includes('tasks.html')]. *)
Definition renderStats_on (on_tasks_page : bool) (this : TaskManager)
    : list effect :=
  if on_tasks_page then [RenderStats (getStats this)] else [].

(** The [change] handler of the checkbox. *)
Definition checkbox_change (index : nat) (on_tasks_page : bool)
    (now : jsstring) (this : TaskManager)
    : option (list effect * TaskManager) :=
  task ← tasks this !! index;
  let this := (toggleTaskCompletion (VNum (Task.id task)) now this).2 in
  task ← tasks this !! index;
  Some ([TaskItem_classList_toggle (js "completed") None;
         TaskText_textDecoration
           (if Task.completed task then js "none" else js "line-through");
         ShowMessage
           (if Task.completed task then js "Task marked as pending"
            else js "Task completed!")
           (js "success")]
        ++ renderStats_on on_tasks_page this, this).

(** The [click] handler of the button [completeBtn]. *)
Definition complete_click (index : nat) (on_tasks_page : bool)
    (now : jsstring) (this : TaskManager)
    : option (list effect * TaskManager) :=
  task ← tasks this !! index;
  let this := (toggleTaskCompletion (VNum (Task.id task)) now this).2 in
  task ← tasks this !! index;
  '(_, updatedTask) ←
    list_find (fun t => VNum (Task.id t) = VNum (Task.id task))
      (getAllTasks this);
  let completed := Task.completed updatedTask in
  Some ([TaskItem_classList_toggle (js "completed") (Some completed);
         TaskText_textDecoration
           (if completed then js "line-through" else js "none");
         CompleteBtn_textContent
           (if completed then js "Undo Complete" else js "Mark Complete");
         CompleteBtn_className
           (if completed then js "btn btn-warning" else js "btn btn-success");
         ShowMessage
           (if completed then js "Task marked as complete!"
            else js "Task marked as pending")
           (js "success")]
        ++ renderStats_on on_tasks_page this, this).

(** ** The page that is loaded *)

(** [pathname.split('/').pop()]: what follows the last ['/'], all of the
    string when it has none. *)
Definition split_pop (s : jsstring) : jsstring :=
  foldl (fun segment c => if (c =? 47)%N then [] else segment ++ [c]) [] s.

(** [String.prototype.includes]. *)
Fixpoint includes (s sub : jsstring) : bool :=
  if bool_decide (sub `prefix_of` s) then true
  else match s with
       | [] => false
       | _ :: r => includes r sub
       end.

(** The functions of [pages] that the handler of [DOMContentLoaded]
    calls. *)
Inductive init :=
  | initHome
  | initAddTask
  | initTasks
  | initCompleted.

(** The [switch] of the handler of [DOMContentLoaded] on the pathname of
    the page; [None] when no case is the current page. *)
Definition DOMContentLoaded (pathname : jsstring) : option init :=
  let currentPage := split_pop pathname in
  if decide (currentPage = js "index.html") then Some initHome
  else if decide (currentPage = []) then Some initHome
  else if decide (currentPage = js "add-task.html") then Some initAddTask
  else if decide (currentPage = js "tasks.html") then Some initTasks
  else if decide (currentPage = js "completed.html") then Some initCompleted
  else None.

(** A value that [JSON.parse] read, at the top or inside another. *)
Definition parsed (j : json) : Prop :=
  exists fuel s rest, parse_value fuel s = Ok (j, rest).

(** ** A sample session *)

(** An ASCII literal in which an apostrophe stands for a double quote. *)
Definition apos (s : string) : jsstring :=
  (fun c => if (c =? 39)%N then 34%N else c) <$> js s.

(** The store of a first visit: nothing under ["tasks"]. *)
Definition first_visit : TaskManager :=
  {| tasks := []; nextId := 1; localStorage := ∅ |}.

Definition monday : jsstring := js "2024-01-01T09:00:00.000Z".
Definition tuesday : jsstring := js "2024-01-02T09:00:00.000Z".

(** The scenario of the specification: two tasks, the first completed. *)
Definition scenario : list op :=
  [AddTask (js "Buy milk") VUndefined VUndefined monday;
   AddTask (js "  ") VUndefined VUndefined monday;
   AddTask (js "Ship release") (VStr (js "2024-01-01")) (VStr (js "high")) monday;
   ToggleTaskCompletion (VNum 1) tuesday].

Definition two_tasks : TaskManager := run scenario first_visit.



(** A stored text that [saveTasks] does not write, with a space after
    the bracket, and the store that the constructor builds from it. *)
Definition spaced_storage : gmap string jsstring :=
  {[ "tasks"%string :=
       apos "[ {'id':1,'text':'Buy milk','completed':false,'date':null,'priority':'medium','createdAt':'2024-01-01T09:00:00.000Z'}]" ]}.

Definition spaced : TaskManager :=
  {| tasks :=
       [{| Task.id := 1; Task.text := js "Buy milk";
           Task.completed := false; Task.date := VNull;
           Task.priority := VStr (js "medium"); Task.createdAt := monday;
           Task.completedAt := VUndefined |}];
     nextId := 2;
     localStorage := spaced_storage |}.

(** * Properties *)

(** ** Strings *)

Lemma trimStart_cons (s : jsstring) (c : N) (r : jsstring) :
  trimStart s = c :: r -> isWhiteSpace c = false.
Proof.
  induction s as [|d s IH]; simpl; [done|].
  destruct (isWhiteSpace d) eqn:Hd; [done|]. by intros [= <- _].
Qed.

Lemma trimStart_nil (s : jsstring) :
  trimStart s = [] <-> forallb isWhiteSpace s = true.
Proof.
  induction s as [|c s IH]; simpl; [done|].
  destruct (isWhiteSpace c); simpl; [done|]. split; discriminate.
Qed.

Lemma trimStart_snoc (s : jsstring) (c : N) :
  isWhiteSpace c = false -> trimStart (s ++ [c]) <> [].
Proof.
  intros Hc H%trimStart_nil. rewrite forallb_app in H. simpl in H.
  rewrite Hc in H. by destruct (forallb isWhiteSpace s).
Qed.

(** The trimmed text is empty exactly when the text is white space. *)
Lemma trim_nil (s : jsstring) :
  trim s = [] <-> forallb isWhiteSpace s = true.
Proof.
  rewrite <- trimStart_nil. unfold trim, trimEnd.
  destruct (trimStart s) as [|c r] eqn:Hs; [done|].
  split; [|done]. intros H. exfalso.
  apply (f_equal (@rev N)) in H. rewrite rev_involutive in H. simpl in H.
  by apply (trimStart_snoc (rev r) c (trimStart_cons s c r Hs)).
Qed.

(** ** Binary64 rounding *)

Section Binary64.
Local Open Scope Q_scope.

Lemma round_ties_even_floor (x : Q) :
  (Qfloor x <= round_ties_even x <= Qfloor x + 1)%Z.
Proof.
  unfold round_ties_even. destruct (_ ?= _); [destruct (Z.even _)|..]; lia.
Qed.

Lemma round_ties_even_error (x : Q) :
  - (1 # 2) <= inject_Z (round_ties_even x) - x <= 1 # 2.
Proof.
  pose proof (Qfloor_le x) as Hlo. pose proof (Qlt_floor x) as Hhi.
  rewrite inject_Z_plus in Hhi. change (inject_Z 1) with 1 in Hhi.
  unfold round_ties_even.
  destruct (Qcompare_spec (x - inject_Z (Qfloor x)) (1 # 2)) as [H|H|H].
  - destruct (Z.even _); rewrite ?inject_Z_plus;
      change (inject_Z 1) with 1; lra.
  - lra.
  - rewrite inject_Z_plus. change (inject_Z 1) with 1. lra.
Qed.

Lemma round_ties_even_nonneg (x : Q) : 0 <= x -> (0 <= round_ties_even x)%Z.
Proof.
  intros Hx. pose proof (round_ties_even_floor x).
  pose proof (Qfloor_resp_le _ _ Hx) as H0.
  change (Qfloor 0) with 0%Z in H0. lia.
Qed.

Lemma round_ties_even_le (x : Q) (n : Z) :
  x <= inject_Z n -> (round_ties_even x <= n)%Z.
Proof.
  intros Hx. pose proof (Qfloor_resp_le _ _ Hx) as Hf.
  rewrite Qfloor_Z in Hf.
  destruct (Z.eq_dec (Qfloor x) n) as [Heq|Hne].
  - unfold round_ties_even.
    pose proof (Qfloor_le x) as Hlo. rewrite Heq in *.
    destruct (Qcompare_spec (x - inject_Z n) (1 # 2)) as [H|H|H]; [lra|lia|lra].
  - pose proof (round_ties_even_floor x). lia.
Qed.

Lemma pow2_pos (z : Z) : 0 < 2 ^ z.
Proof. by apply Qpower_0_lt. Qed.

Lemma pow2_le (n m : Z) : (n <= m)%Z -> 2 ^ n <= 2 ^ m.
Proof. intros H. by apply Qpower_le_compat_l. Qed.

Lemma pow2_inv (n : Z) : 2 ^ n * 2 ^ (- n) == 1.
Proof.
  rewrite <- Qpower_plus by done. by rewrite Z.add_opp_diag_r.
Qed.

Lemma pow2_succ (n : Z) : 2 ^ (n + 1) == 2 * 2 ^ n.
Proof. rewrite Qpower_plus by done. simpl. ring. Qed.

Lemma ilog2_le (x : Q) : 0 < x -> 2 ^ ilog2 x <= x.
Proof.
  intros Hx. unfold ilog2.
  destruct (Qle_bool _ x) eqn:Htest; [by apply Qle_bool_iff|].
  clear Htest. destruct x as [n d]. simpl Qnum. simpl Qden.
  set (a := Z.log2 n). set (b := Z.log2 (Z.pos d)).
  assert (0 < n)%Z as Hnum.
  { unfold Qlt in Hx. simpl in Hx. lia. }
  destruct (Z.log2_spec n Hnum) as [Ha _].
  destruct (Z.log2_spec (Z.pos d) (Pos2Z.is_pos _)) as [_ Hb].
  fold a in Ha. fold b in Hb.
  assert (0 <= a)%Z as Ha0 by apply Z.log2_nonneg.
  assert (0 <= b)%Z as Hb0 by apply Z.log2_nonneg.
  rewrite Zle_Qle, Zpower_Qpower in Ha by done.
  rewrite Zlt_Qlt, Zpower_Qpower in Hb by lia.
  replace (Z.succ b) with (b + 1)%Z in Hb by lia.
  replace (a - b - 1)%Z with (a - (b + 1))%Z by lia.
  change (inject_Z 2) with 2 in *.
  rewrite Qpower_minus by done. rewrite (Qmake_Qdiv n d).
  pose proof (pow2_pos (b + 1)) as Hp. pose proof (pow2_pos a) as Hpa.
  assert (0 < inject_Z (Z.pos d)) as Hd by done.
  apply Qle_shift_div_r; [done|].
  unfold Qdiv. rewrite <- Qmult_assoc, (Qmult_comm (/ _)), Qmult_assoc.
  apply Qle_shift_div_l; [done|].
  apply Qle_trans with (2 ^ a * 2 ^ (b + 1)).
  - apply Qmult_le_l; [done|]. by apply Qlt_le_weak.
  - apply Qmult_le_r; [done|]. done.
Qed.

Lemma ilog2_upper (x : Q) (k : Z) : 0 < x -> x <= 2 ^ k -> (ilog2 x <= k)%Z.
Proof.
  intros Hx Hk. apply (Qpower_le_compat_l_inv 2); [|done].
  apply Qle_trans with x; [by apply ilog2_le|done].
Qed.

(** The result of [round64_pos] on [x] of exponent at most [k]: it stays
    below an integer bound of [x], and is within half a quantum of [x]. *)
Lemma round64_pos_spec (x : Q) (k B : Z) :
  0 < x -> x <= inject_Z B -> x <= 2 ^ k -> (-1022 <= k <= 52)%Z ->
  0 <= round64_pos x <= inject_Z B
  /\ - 2 ^ (k - 53) <= round64_pos x - x <= 2 ^ (k - 53).
Proof.
  intros Hx HB Hk Hrange. unfold round64_pos.
  pose proof (ilog2_upper x k Hx Hk) as Hlog.
  set (e := Z.max (ilog2 x) (-1022)).
  assert (-1022 <= e <= k)%Z as He by lia.
  set (s := 2 ^ (52 - e)). set (u := 2 ^ (e - 52)).
  assert (0 < s) as Hs by apply pow2_pos.
  assert (0 < u) as Hu by apply pow2_pos.
  assert (s * u == 1) as Hsu.
  { unfold s, u. replace (e - 52)%Z with (- (52 - e))%Z by lia.
    apply pow2_inv. }
  assert (s == inject_Z (2 ^ (52 - e))) as Hint.
  { unfold s. by rewrite Zpower_Qpower by lia. }
  assert (u == 2 * 2 ^ (e - 53)) as Hhalf.
  { unfold u. rewrite <- pow2_succ. by replace (e - 53 + 1)%Z with (e - 52)%Z by lia. }
  pose proof (pow2_le (e - 53) (k - 53) ltac:(lia)) as Hquantum.
  set (y := x * s).
  assert (0 <= y) as Hy.
  { unfold y. apply Qmult_le_0_compat; by apply Qlt_le_weak. }
  pose proof (round_ties_even_nonneg y Hy) as Hn0.
  pose proof (round_ties_even_error y) as [Hlo Hhi].
  assert (round_ties_even y <= B * 2 ^ (52 - e))%Z as HnB.
  { apply round_ties_even_le. rewrite inject_Z_mult, <- Hint.
    unfold y. apply Qmult_le_compat_r; [done|by apply Qlt_le_weak]. }
  set (n := round_ties_even y) in *.
  rewrite Zle_Qle in Hn0, HnB. rewrite inject_Z_mult, <- Hint in HnB.
  change (inject_Z 0) with 0 in Hn0.
  assert (y * u == x) as Hyu.
  { unfold y. rewrite <- Qmult_assoc, Hsu. ring. }
  assert (inject_Z B * s * u == inject_Z B) as HBu.
  { rewrite <- Qmult_assoc, Hsu. ring. }
  pose proof (Qmult_le_compat_r _ _ u Hn0 (Qlt_le_weak _ _ Hu)) as H1.
  pose proof (Qmult_le_compat_r _ _ u HnB (Qlt_le_weak _ _ Hu)) as H2.
  pose proof (Qmult_le_compat_r _ _ u Hlo (Qlt_le_weak _ _ Hu)) as H3.
  pose proof (Qmult_le_compat_r _ _ u Hhi (Qlt_le_weak _ _ Hu)) as H4.
  rewrite HBu in H2.
  assert ((inject_Z n - y) * u == inject_Z n * u - x) as Hdiff.
  { rewrite <- Hyu. ring. }
  rewrite Hdiff in H3, H4.
  set (m := inject_Z n * u) in *. set (w := 2 ^ (e - 53)) in *.
  set (W := 2 ^ (k - 53)) in *. lra.
Qed.

Lemma round64_spec (x : Q) (k B : Z) :
  0 <= x -> x <= inject_Z B -> x <= 2 ^ k -> (-1022 <= k <= 52)%Z ->
  0 <= round64 x <= inject_Z B
  /\ - 2 ^ (k - 53) <= round64 x - x <= 2 ^ (k - 53).
Proof.
  intros Hx HB Hk Hrange. unfold round64.
  pose proof (pow2_pos (k - 53)) as Hpos.
  destruct (Qcompare_spec x 0) as [H|H|H].
  - set (W := 2 ^ (k - 53)) in *. lra.
  - lra.
  - by apply round64_pos_spec.
Qed.

Lemma inject_Z_lt (a b : Z) : (a < b)%Z -> inject_Z a < inject_Z b.
Proof. by rewrite Zlt_Qlt. Qed.

Lemma inject_Z_le (a b : Z) : (a <= b)%Z -> inject_Z a <= inject_Z b.
Proof. by rewrite Zle_Qle. Qed.

Lemma Math_round_spec (x : Q) :
  inject_Z (Math_round x) <= x + (1 # 2) < inject_Z (Math_round x) + 1.
Proof.
  unfold Math_round. split; [apply Qfloor_le|].
  pose proof (Qlt_floor (x + (1 # 2))) as H.
  by rewrite inject_Z_plus in H.
Qed.

Section CompletionRate.
Variables c t : Z.
Hypothesis Hc : (0 <= c <= t)%Z.
Hypothesis Ht : (0 < t)%Z.

Let C := inject_Z c.
Let T := inject_Z t.
Let q := div64 C T.
Let p := mul64 q 100.

Lemma total_pos : 0 < T.
Proof. by apply (inject_Z_lt 0 t). Qed.

Lemma ratio_times_total : C / T * T == C.
Proof.
  pose proof total_pos as HT. field. intros H0. rewrite H0 in HT.
  by apply Qlt_irrefl in HT.
Qed.

(** The quotient is in [0, 1], within [2^-53] of the exact one. *)
Lemma quotient_spec :
  0 <= q <= 1 /\ - (1 # 2 ^ 53) <= q - C / T <= 1 # 2 ^ 53.
Proof.
  pose proof total_pos as HT.
  assert (0 <= C) as HC by (apply (inject_Z_le 0 c); lia).
  assert (C <= T) as HCT by (apply inject_Z_le; lia).
  assert (0 <= C / T) as Hv0 by (by apply Qle_shift_div_l; [|rewrite Qmult_0_l]).
  assert (C / T <= 1) as Hv1 by (by apply Qle_shift_div_r; [|rewrite Qmult_1_l]).
  exact (round64_spec (C / T) 0 1 Hv0 Hv1 Hv1 ltac:(lia)).
Qed.

(** The product is in [0, 100], within [2^-46] of [100 q]. *)
Lemma product_spec :
  0 <= p <= 100 /\ - (1 # 2 ^ 46) <= p - q * 100 <= 1 # 2 ^ 46.
Proof.
  destruct quotient_spec as [[Hq0 Hq1] _].
  assert (q * 100 <= inject_Z 100) as Hz100.
  { change (inject_Z 100) with 100. lra. }
  assert (q * 100 <= 2 ^ 7) as Hz128.
  { change (2 ^ 7) with 128. lra. }
  assert (0 <= q * 100) as Hz0 by lra.
  exact (round64_spec (q * 100) 7 100 Hz0 Hz100 Hz128 ltac:(lia)).
Qed.

(** The rate is between 0 and 100. *)
Lemma completionRate_range : (0 <= Math_round p <= 100)%Z.
Proof.
  destruct product_spec as [[Hp0 Hp1] _].
  destruct (Math_round_spec p) as [Hrlo Hrhi].
  assert (-1 < Math_round p < 101)%Z; [|lia].
  rewrite !Zlt_Qlt. change (inject_Z (-1)) with (-1).
  change (inject_Z 101) with 101. lra.
Qed.

(** The rate is an integer nearest to the exact percentage [100 c / t],
    for a total that an array can have. *)
Lemma completionRate_nearest :
  (t < 2 ^ 32)%Z ->
  (- t <= 2 * (Math_round p * t - 100 * c) <= t)%Z.
Proof.
  intros Ht32.
  pose proof total_pos as HT. pose proof ratio_times_total as HvT.
  assert (T < 4294967296) as HT32 by by apply (inject_Z_lt t 4294967296).
  destruct quotient_spec as [_ [Hqlo Hqhi]].
  destruct product_spec as [_ [Hplo Hphi]].
  change (1 # 2 ^ 53) with (1 # 9007199254740992) in *.
  change (1 # 2 ^ 46) with (1 # 70368744177664) in *.
  destruct (Math_round_spec p) as [Hrlo Hrhi].
  set (r := Math_round p) in *. set (R := inject_Z r) in *.
  assert (R * T <= (p + (1 # 2)) * T) as Hup.
  { apply Qmult_le_compat_r; [done|by apply Qlt_le_weak]. }
  assert ((p + (1 # 2)) * T < (R + 1) * T) as Hdown.
  { by apply Qmult_lt_compat_r. }
  assert (-(1 # 35184372088832) * T <= (p - 100 * (C / T)) * T
          <= (1 # 35184372088832) * T) as [Hel Heh].
  { split; (apply Qmult_le_compat_r; [lra|by apply Qlt_le_weak]). }
  assert ((p - 100 * (C / T)) * T == p * T - 100 * C) as HpT.
  { rewrite <- HvT at 2. ring. }
  rewrite HpT in Hel, Heh.
  assert (2 * (r * t) < 200 * c + t + 1
          /\ 200 * c + - t + -1 < 2 * (r * t))%Z; [|lia].
  rewrite !Zlt_Qlt.
  repeat first [rewrite inject_Z_plus | rewrite inject_Z_opp
               | rewrite inject_Z_mult].
  fold C T R.
  change (inject_Z 2) with 2. change (inject_Z 200) with 200.
  change (inject_Z 1) with 1. change (inject_Z (-1)) with (-1).
  set (X := R * T) in *. set (Y := p * T) in *.
  assert ((p + (1 # 2)) * T == Y + (1 # 2) * T) as E1 by (unfold Y; ring).
  assert ((R + 1) * T == X + T) as E2 by (unfold X; ring).
  rewrite E1 in Hup, Hdown. rewrite E2 in Hdown. lra.
Qed.
(** Away from a tie of the exact percentage, the rate is the exact
    percentage rounded half up, [floor ((200 c + t) / (2 t))]. *)
Lemma completionRate_exact :
  (t < 2 ^ 32)%Z -> ((200 * c + t) mod (2 * t) <> 0)%Z ->
  Math_round p = ((200 * c + t) / (2 * t))%Z.
Proof.
  intros Ht32 Htie. pose proof (completionRate_nearest Ht32) as Hnear.
  set (r := Math_round p) in *.
  assert (2 * (r * t) - 200 * c <> t)%Z as Hup.
  { intros H. apply Htie.
    replace (200 * c + t)%Z with (r * (2 * t))%Z by lia.
    apply Z.mod_mul. lia. }
  assert (2 * (r * t) - 200 * c <> - t)%Z as Hdown.
  { intros H. apply Htie.
    replace (200 * c + t)%Z with ((r + 1) * (2 * t))%Z by lia.
    apply Z.mod_mul. lia. }
  apply (Z.div_unique_pos _ _ r (200 * c + t - 2 * t * r)); lia.
Qed.
End CompletionRate.

End Binary64.

(** The model of binary64 and the kernel's binary64 give the same product
    on every count up to 40 tasks. *)
Example round64_agrees_with_kernel :
  forallb
    (fun t =>
       forallb
         (fun c =>
            match percent_float (Z.of_nat c) (Z.of_nat t) with
            | Some x =>
                Qeq_bool x
                  (mul64 (div64 (inject_Z (Z.of_nat c)) (inject_Z (Z.of_nat t)))
                     100)
            | None => false
            end)
         (seq 0 (S t)))
    (seq 1 40)
  = true.
Proof. vm_compute. reflexivity. Qed.

(** ** The counter in binary64 *)

Section Counter64.
Local Open Scope Q_scope.

Lemma round_ties_even_comp (x y : Q) :
  x == y -> round_ties_even x = round_ties_even y.
Proof.
  intros H. unfold round_ties_even. rewrite (Qfloor_comp _ _ H).
  by rewrite H.
Qed.

Lemma round_ties_even_Z (k : Z) : round_ties_even (inject_Z k) = k.
Proof.
  unfold round_ties_even. rewrite Qfloor_Z.
  assert ((inject_Z k - inject_Z k ?= 1 # 2) = Lt) as ->; [|done].
  rewrite <- Qlt_alt. set (q := inject_Z k). lra.
Qed.

(** An integer of at most 53 bits is a binary64 value. *)
Lemma round64_pos_integer (m : Z) :
  (0 < m <= 2 ^ 53)%Z -> round64_pos (inject_Z m) == inject_Z m.
Proof.
  intros Hm.
  assert (0 < inject_Z m) as Hpos by (apply (inject_Z_lt 0 m); lia).
  assert (inject_Z m <= 2 ^ 53) as Hle.
  { apply Qle_trans with (inject_Z (2 ^ 53)); [apply inject_Z_le; lia|].
    vm_compute. discriminate. }
  pose proof (ilog2_upper _ _ Hpos Hle) as Hlog.
  pose proof (ilog2_le _ Hpos) as Hlow.
  unfold round64_pos. set (e := Z.max (ilog2 (inject_Z m)) (-1022)).
  destruct (decide (e = 53%Z)) as [He|He].
  - assert (ilog2 (inject_Z m) = 53%Z) as Hlog53 by lia.
    rewrite Hlog53 in Hlow.
    assert (m = 2 ^ 53)%Z as ->.
    { assert (inject_Z (2 ^ 53) <= inject_Z m) as H.
      { apply Qle_trans with (2 ^ 53); [|done]. vm_compute. discriminate. }
      rewrite <- Zle_Qle in H. lia. }
    vm_compute. reflexivity.
  - assert (0 <= 52 - e)%Z as Hs by lia.
    assert (inject_Z m * 2 ^ (52 - e) == inject_Z (m * 2 ^ (52 - e))) as Hint.
    { rewrite inject_Z_mult.
      by rewrite (Zpower_Qpower 2 (52 - e) Hs). }
    rewrite (round_ties_even_comp _ _ Hint), round_ties_even_Z.
    rewrite inject_Z_mult, (Zpower_Qpower 2 (52 - e) Hs).
    change (inject_Z 2) with 2.
    replace (e - 52)%Z with (- (52 - e))%Z by lia.
    rewrite <- Qmult_assoc, pow2_inv. ring.
Qed.

Lemma add64_integer (n : Z) :
  (- 2 ^ 53 <= n < 2 ^ 53)%Z -> Qfloor (add64 (inject_Z n) 1) = (n + 1)%Z.
Proof.
  intros Hn. unfold add64.
  assert (inject_Z n + 1 = inject_Z (n + 1)) as ->.
  { unfold Qplus, inject_Z. simpl. f_equal. lia. }
  unfold round64.
  destruct (Z.lt_trichotomy (n + 1) 0) as [Hneg|[Hzero|Hpos]].
  - assert ((inject_Z (n + 1) ?= 0) = Lt) as ->.
    { rewrite <- Qlt_alt. apply (inject_Z_lt (n + 1) 0). lia. }
    change (- inject_Z (n + 1)) with (inject_Z (- (n + 1))).
    assert (- round64_pos (inject_Z (- (n + 1))) == inject_Z (n + 1)) as H.
    { rewrite round64_pos_integer by lia. rewrite inject_Z_opp. ring. }
    by rewrite (Qfloor_comp _ _ H), Qfloor_Z.
  - rewrite Hzero. reflexivity.
  - assert ((inject_Z (n + 1) ?= 0) = Gt) as ->.
    { rewrite <- Qgt_alt. apply (inject_Z_lt 0 (n + 1)). lia. }
    assert (0 < n + 1 <= 2 ^ 53)%Z as Hm by lia.
    by rewrite (Qfloor_comp _ _ (round64_pos_integer _ Hm)), Qfloor_Z.
Qed.

End Counter64.

(** In the range of the counter, [increment] is the binary64 sum. *)
Lemma increment_sum (n : Z) :
  - 2 ^ 53 <= n <= 2 ^ 53 -> increment n = Qfloor (add64 (inject_Z n) 1).
Proof.
  intros Hn. unfold increment. destruct (decide (n = 2 ^ 53)) as [->|Hne].
  - vm_compute. reflexivity.
  - rewrite add64_integer by lia. lia.
Qed.

(** Below [2^53] the counter goes up by one. *)
Lemma increment_exact (n : Z) :
  - 2 ^ 53 <= n < 2 ^ 53 -> increment n = n + 1.
Proof. intros Hn. unfold increment. rewrite add64_integer by done. lia. Qed.

(** At [2^53] it stays. *)
Lemma increment_stop : increment (2 ^ 53) = 2 ^ 53.
Proof. vm_compute. reflexivity. Qed.

Lemma increment_le (n : Z) : n <= increment n.
Proof. unfold increment. lia. Qed.

Lemma increment_range (n : Z) :
  - 2 ^ 53 <= n <= 2 ^ 53 -> - 2 ^ 53 < increment n <= 2 ^ 53.
Proof.
  intros Hn. destruct (decide (n = 2 ^ 53)) as [->|Hne].
  - rewrite increment_stop. lia.
  - rewrite increment_exact by lia. lia.
Qed.

(** The model of the binary64 sum and the kernel's binary64 give the same
    counter around [2^53]. *)
Example add64_agrees_with_kernel :
  forallb
    (fun n =>
       match float_value
               (PrimFloat.add (PrimFloat.of_uint63 (Uint63.of_Z n))
                  (PrimFloat.of_uint63 (Uint63.of_Z 1))) with
       | Some x => Qeq_bool x (inject_Z (increment n))
       | None => false
       end)
    [0; 1; 41; 2 ^ 52; 2 ^ 53 - 2; 2 ^ 53 - 1; 2 ^ 53]
  = true.
Proof. vm_compute. reflexivity. Qed.

(** ** What the constructor reads *)

(** A value that [JSON.parse] read. *)
Lemma parse_digits_nonneg (s : jsstring) (acc : Z) :
  0 <= acc -> 0 <= (parse_digits acc s).1.
Proof.
  revert acc. induction s as [|c s IH]; intros acc Hacc; simpl; [done|].
  destruct (is_digit c) eqn:Hc; [|done]. apply IH.
  unfold is_digit in Hc. apply andb_prop in Hc as [H1 H2].
  apply N.leb_le in H1. lia.
Qed.

Lemma finish_number_range (neg : bool) (n : Z) (r : jsstring) (j : json)
    (rest : jsstring) :
  0 <= n -> finish_number neg n r = Ok (j, rest) ->
  exists i, j = JNum i /\ - MAX_SAFE_INTEGER <= i <= MAX_SAFE_INTEGER.
Proof.
  intros Hn. unfold finish_number.
  destruct (match r with [] => false | _ => _ end); [done|].
  destruct (neg && (n =? 0)); [done|].
  destruct (Z.ltb_spec MAX_SAFE_INTEGER n); [done|].
  intros [= <- _]. eexists. split; [done|]. destruct neg; lia.
Qed.

Lemma parse_number_range (s : jsstring) (j : json) (rest : jsstring) :
  parse_number s = Ok (j, rest) ->
  exists i, j = JNum i /\ - MAX_SAFE_INTEGER <= i <= MAX_SAFE_INTEGER.
Proof.
  unfold parse_number.
  destruct (match s with [] => _ | _ => _ end) as [neg s1].
  destruct s1 as [|c r]; [done|].
  destruct (c =? 48)%N; [by apply finish_number_range|].
  destruct (is_digit c); [|done].
  pose proof (parse_digits_nonneg (c :: r) 0 ltac:(done)) as Hn.
  destruct (parse_digits 0 (c :: r)) as [n r']. by apply finish_number_range.
Qed.

Lemma parsed_number (n : Z) :
  parsed (JNum n) -> - MAX_SAFE_INTEGER <= n <= MAX_SAFE_INTEGER.
Proof.
  intros (fuel & s & rest & Hparse).
  destruct fuel as [|fuel]; [done|]. cbn [parse_value] in Hparse.
  destruct (skip_ws s) as [|c r]; [done|].
  destruct (c =? 34)%N.
  { destruct (parse_string_chars r) as [[? ?]| |]; done. }
  destruct (c =? 91)%N.
  { destruct (expect 93 r); [done|].
    destruct (parse_elements fuel r) as [[? ?]| |]; done. }
  destruct (c =? 123)%N.
  { destruct (expect 125 r); [done|].
    destruct (parse_members fuel r) as [[? ?]| |]; done. }
  destruct ((c =? 45)%N || is_digit c).
  { apply parse_number_range in Hparse as (i & [= ->] & Hi). done. }
  repeat (destruct (strip_prefix _ (c :: r)); [done|]). done.
Qed.

Lemma parsed_elements (fuel : nat) (s : jsstring) (l : list json)
    (rest : jsstring) :
  parse_elements fuel s = Ok (l, rest) -> Forall parsed l.
Proof.
  revert s l rest. induction fuel as [|fuel IH]; intros s l rest; [done|].
  cbn [parse_elements].
  destruct (parse_value fuel s) as [[v r]| |] eqn:Hv; [|done..].
  cbn [mbind outcome_bind].
  assert (parsed v) as Hparsed by by exists fuel, s, r.
  destruct (expect 44 r) as [r1|].
  - destruct (parse_elements fuel r1) as [[vs rest']| |] eqn:Hvs; [|done..].
    cbn [mbind outcome_bind]. intros [= <- _]. constructor; [done|].
    by eapply IH.
  - destruct (expect 93 r); [|done]. intros [= <- _]. by constructor.
Qed.

Lemma parsed_members (fuel : nat) (s : jsstring)
    (ms : list (jsstring * json)) (rest : jsstring) :
  parse_members fuel s = Ok (ms, rest) -> Forall (fun m => parsed m.2) ms.
Proof.
  revert s ms rest. induction fuel as [|fuel IH]; intros s ms rest; [done|].
  cbn [parse_members].
  destruct (expect 34 s) as [r|]; [|done].
  destruct (parse_string_chars r) as [[k r1]| |]; [|done..].
  cbn [mbind outcome_bind].
  destruct (expect 58 r1) as [r2|]; [|done].
  destruct (parse_value fuel r2) as [[v r3]| |] eqn:Hv; [|done..].
  cbn [mbind outcome_bind].
  assert (parsed v) as Hparsed by by exists fuel, r2, r3.
  destruct (expect 44 r3) as [r4|].
  - destruct (parse_members fuel r4) as [[ms' rest']| |] eqn:Hms; [|done..].
    cbn [mbind outcome_bind]. intros [= <- _]. constructor; [done|].
    by eapply IH.
  - destruct (expect 125 r3); [|done]. intros [= <- _]. by constructor.
Qed.

Lemma parsed_array (l : list json) : parsed (JArr l) -> Forall parsed l.
Proof.
  intros (fuel & s & rest & Hparse).
  destruct fuel as [|fuel]; [done|]. cbn [parse_value] in Hparse.
  destruct (skip_ws s) as [|c r]; [done|].
  destruct (c =? 34)%N.
  { destruct (parse_string_chars r) as [[? ?]| |]; done. }
  destruct (c =? 91)%N.
  { destruct (expect 93 r); [by injection Hparse as <- _|].
    destruct (parse_elements fuel r) as [[l' ?]| |] eqn:Hl; [|done..].
    cbn [mbind outcome_bind] in Hparse. injection Hparse as <- _.
    by eapply parsed_elements. }
  destruct (c =? 123)%N.
  { destruct (expect 125 r); [done|].
    destruct (parse_members fuel r) as [[? ?]| |]; done. }
  destruct ((c =? 45)%N || is_digit c).
  { by apply parse_number_range in Hparse as (i & [=] & Hi). }
  repeat (destruct (strip_prefix _ (c :: r)); [done|]). done.
Qed.

Lemma parsed_object (ms : list (jsstring * json)) :
  parsed (JObj ms) -> Forall (fun m => parsed m.2) ms.
Proof.
  intros (fuel & s & rest & Hparse).
  destruct fuel as [|fuel]; [done|]. cbn [parse_value] in Hparse.
  destruct (skip_ws s) as [|c r]; [done|].
  destruct (c =? 34)%N.
  { destruct (parse_string_chars r) as [[? ?]| |]; done. }
  destruct (c =? 91)%N.
  { destruct (expect 93 r); [done|].
    destruct (parse_elements fuel r) as [[? ?]| |]; done. }
  destruct (c =? 123)%N.
  { destruct (expect 125 r); [by injection Hparse as <- _|].
    destruct (parse_members fuel r) as [[ms' ?]| |] eqn:Hms; [|done..].
    cbn [mbind outcome_bind] in Hparse. injection Hparse as <- _.
    by eapply parsed_members. }
  destruct ((c =? 45)%N || is_digit c).
  { by apply parse_number_range in Hparse as (i & [=] & Hi). }
  repeat (destruct (strip_prefix _ (c :: r)); [done|]). done.
Qed.

Lemma JSON_parse_parsed (text : jsstring) (j : json) :
  JSON_parse text = Ok j -> parsed j.
Proof.
  unfold JSON_parse.
  destruct (parse_value _ text) as [[v r]| |] eqn:Hv; [|done..].
  cbn [mbind outcome_bind]. destruct (skip_ws r); [|done].
  intros [= <-]. by eexists _, _, _.
Qed.

Lemma decodeTask_id (j : json) (task : Task) :
  parsed j -> decodeTask j = Some task ->
  - MAX_SAFE_INTEGER <= Task.id task <= MAX_SAFE_INTEGER.
Proof.
  intros Hparsed Hdecode.
  assert (exists ms, j = JObj ((js "id", JNum (Task.id task)) :: ms))
    as [ms ->].
  { unfold decodeTask in Hdecode.
    repeat (case_match; try done); simplify_option_eq; by eexists. }
  apply parsed_object, Forall_cons in Hparsed as [Hid _].
  by apply parsed_number.
Qed.

Lemma decodeTasks_ids (j : json) (l : list Task) :
  parsed j -> decodeTasks j = Some l ->
  Forall (fun task => - MAX_SAFE_INTEGER <= Task.id task <= MAX_SAFE_INTEGER)
    l.
Proof.
  intros Hparsed Hdecode. destruct j as [| | | |js|]; try done.
  apply parsed_array in Hparsed. simpl in Hdecode.
  apply mapM_Some in Hdecode. induction Hdecode as [|j task js l Hj _ IH].
  - constructor.
  - apply Forall_cons in Hparsed as [Hparsed Hrest].
    constructor; [by eapply decodeTask_id|by apply IH].
Qed.

(** ** Construction *)

Example first_visit_constructed : new_TaskManager ∅ = Ok first_visit.
Proof. reflexivity. Qed.



Example spaced_constructed : new_TaskManager spaced_storage = Ok spaced.
Proof. vm_compute. reflexivity. Qed.

(** ** The counter *)

(** Case analysis on what [find] and [findIndex] give. *)
Ltac find_cases index task Hfind :=
  unfold toggleTaskCompletion, deleteTask;
  destruct (list_find _ _) as [[index task]|] eqn:Hfind; simpl.

Lemma foldr_max_le (i : Z) (ids : list Z) :
  i <= foldr Z.max i ids /\ Forall (fun j => j <= foldr Z.max i ids) ids.
Proof.
  induction ids as [|j ids [IH1 IH2]]; simpl; [split; [lia|constructor]|].
  split; [lia|]. constructor; [lia|].
  eapply Forall_impl; [exact IH2|]. intros k Hk. simpl in Hk. lia.
Qed.

Lemma foldr_max_elem (i : Z) (ids : list Z) :
  foldr Z.max i ids ∈ i :: ids.
Proof.
  induction ids as [|j ids IH]; simpl; [by apply elem_of_cons; left|].
  rewrite !elem_of_cons in *.
  destruct (Z.max_spec j (foldr Z.max i ids)) as [[_ ->]|[_ ->]]; tauto.
Qed.

Lemma getNextId_below (l : list Task) :
  Forall (fun task => Task.id task < getNextId l) l.
Proof.
  unfold getNextId. destruct l as [|t l]; [constructor|].
  rewrite fmap_cons.
  destruct (foldr_max_le (Task.id t) (Task.id <$> l)) as [H1 H2].
  constructor; [lia|].
  rewrite Forall_fmap in H2. eapply Forall_impl; [exact H2|].
  intros x Hx. simpl in Hx. lia.
Qed.

Lemma new_TaskManager_inv storage this :
  new_TaskManager storage = Ok this ->
  nextId this = getNextId (tasks this) /\ localStorage this = storage.
Proof.
  unfold new_TaskManager. destruct (loadTasks storage) as [j| |]; simpl; [|done..].
  destruct (decodeTasks j); [|done]. by intros [= <-].
Qed.

Lemma ids_below_new storage this :
  new_TaskManager storage = Ok this -> ids_below this.
Proof.
  intros [H _]%new_TaskManager_inv. unfold ids_below. rewrite H.
  apply getNextId_below.
Qed.

Lemma ids_below_weaken (l : list Task) (n m : Z) :
  n <= m -> Forall (fun task => Task.id task < n) l ->
  Forall (fun task => Task.id task < m) l.
Proof.
  intros Hnm H. eapply Forall_impl; [exact H|].
  intros t Ht. simpl in Ht. lia.
Qed.

Lemma getNextId_max (l : list Task) :
  match l with
  | [] => getNextId l = 1
  | _ :: _ => exists task, task ∈ l /\ getNextId l = Task.id task + 1
  end.
Proof.
  destruct l as [|t l]; [done|]. unfold getNextId. rewrite fmap_cons.
  pose proof (foldr_max_elem (Task.id t) (Task.id <$> l)) as Hin.
  rewrite <- fmap_cons in Hin.
  apply list_elem_of_fmap in Hin as (task & Heq & Hin).
  exists task. split; [done|]. by rewrite Heq.
Qed.

(** The ids that the constructor reads are safe integers. *)
Lemma new_TaskManager_ids storage this :
  new_TaskManager storage = Ok this ->
  Forall (fun task => - MAX_SAFE_INTEGER <= Task.id task <= MAX_SAFE_INTEGER)
    (tasks this).
Proof.
  unfold new_TaskManager.
  destruct (loadTasks storage) as [j| |] eqn:Hload; simpl; [|done..].
  destruct (decodeTasks j) as [l|] eqn:Hdecode; [|done]. intros [= <-]. simpl.
  unfold loadTasks in Hload.
  assert (j = JArr [] \/ parsed j) as [->|Hparsed].
  { destruct (storage !! "tasks"%string) as [[|c text]|].
    - left. by injection Hload.
    - right. by eapply JSON_parse_parsed.
    - left. by injection Hload. }
  - injection Hdecode as <-. constructor.
  - by eapply decodeTasks_ids.
Qed.

Lemma counter_range_new storage this :
  new_TaskManager storage = Ok this -> counter_range this.
Proof.
  intros Hnew. pose proof (new_TaskManager_ids _ _ Hnew) as Hids.
  destruct (new_TaskManager_inv _ _ Hnew) as [Hnext _].
  pose proof (getNextId_max (tasks this)) as Hmax.
  unfold counter_range, MAX_SAFE_INTEGER in *. rewrite Hnext.
  destruct (tasks this) as [|t l]; [rewrite Hmax; lia|].
  destruct Hmax as (task & Hin & ->).
  rewrite Forall_forall in Hids. specialize (Hids task Hin). simpl in Hids.
  lia.
Qed.

Lemma ids_below_upto (this : TaskManager) : ids_below this -> ids_upto this.
Proof.
  unfold ids_below, ids_upto. intros H. eapply Forall_impl; [exact H|].
  intros t Ht. by left.
Qed.

Lemma ids_upto_below (this : TaskManager) :
  ids_upto this ->
  nextId this < 2 ^ 53 \/ (forall task, task ∈ tasks this ->
                             Task.id task <> 2 ^ 53) ->
  ids_below this.
Proof.
  unfold ids_below, ids_upto. rewrite !Forall_forall.
  intros H Hor t Hin. destruct (H t Hin) as [Hlt|[Hid Hnext]]; [done|].
  destruct Hor as [Hn|Hn]; [lia|]. by destruct (Hn t Hin).
Qed.

(** What a call does to the counter: it never goes down, it stays in its
    range, and the ids stay below it, up to the id [2^53]. *)
Lemma step_counter (o : op) (this : TaskManager) :
  nextId this <= nextId (step o this)
  /\ (counter_range this ->
      counter_range (step o this)
      /\ (ids_upto this -> ids_upto (step o this))).
Proof.
  unfold counter_range, ids_upto.
  destruct o as [text date priority now|id now|id|]; simpl.
  - unfold addTask. destruct (trim text); simpl; [split; [lia|done]|].
    pose proof (increment_le (nextId this)) as Hle.
    split; [done|]. intros Hrange.
    pose proof (increment_range _ Hrange) as Hrange'.
    split; [lia|]. intros H. apply Forall_app. split.
    + eapply Forall_impl; [exact H|]. intros t [Ht|[Ht Hn]]; simpl.
      * left. lia.
      * right. rewrite Hn, increment_stop. done.
    + apply Forall_singleton. simpl.
      destruct (decide (nextId this = 2 ^ 53)) as [Hn|Hn].
      * right. rewrite Hn, increment_stop. done.
      * left. rewrite increment_exact by lia. lia.
  - find_cases i t Hfind; [|split; [lia|done]].
    split; [lia|]. intros Hrange. split; [done|]. intros H.
    apply list_find_Some in Hfind as (Hi & _ & _).
    apply Forall_insert; [done|]. simpl.
    by apply (Forall_lookup_1 _ _ _ _ H Hi).
  - find_cases i t Hfind; [|split; [lia|done]].
    split; [lia|]. intros Hrange. split; [done|]. intros H.
    by apply Forall_delete.
  - split; [lia|]. intros Hrange. split; [done|]. intros H.
    apply Forall_forall.
    intros t [_ Ht]%list_elem_of_filter. revert t Ht. by apply Forall_forall.
Qed.

Lemma run_app (ops1 ops2 : list op) (this : TaskManager) :
  run (ops1 ++ ops2) this = run ops2 (run ops1 this).
Proof. unfold run. apply foldl_app. Qed.

Lemma run_counter (ops : list op) (this : TaskManager) :
  nextId this <= nextId (run ops this)
  /\ (counter_range this ->
      counter_range (run ops this)
      /\ (ids_upto this -> ids_upto (run ops this))).
Proof.
  revert this. induction ops as [|o ops IH]; intros this; simpl.
  - split; [lia|done].
  - destruct (step_counter o this) as [H1 H2].
    destruct (IH (step o this)) as [H3 H4]. split; [lia|].
    intros Hrange. destruct (H2 Hrange) as [H5 H6].
    destruct (H4 H5) as [H7 H8]. split; [done|auto].
Qed.

(** The states of a session keep the counter in its range and the ids
    below it, up to the id [2^53]. *)
Lemma reachable_counter (this : TaskManager) :
  reachable this -> counter_range this /\ ids_upto this.
Proof.
  intros (storage & this0 & ops & Hnew & ->).
  destruct (run_counter ops this0) as [_ H].
  destruct (H (counter_range_new _ _ Hnew)) as [H1 H2].
  split; [done|]. apply H2, ids_below_upto. by eapply ids_below_new.
Qed.

(** While the counter is below [2^53], what every call keeps in a state
    whose ids are below the counter is kept by a session. *)
Lemma run_below (P : TaskManager -> Prop) :
  (forall o this, ids_below this -> P this -> P (step o this)) ->
  forall ops this,
    counter_range this -> ids_below this -> nextId (run ops this) < 2 ^ 53 ->
    P this -> P (run ops this) /\ ids_below (run ops this).
Proof.
  intros Hstep ops.
  induction ops as [|o ops IH]; intros this Hrange Hbelow Hlast HP; [done|].
  simpl in *. destruct (step_counter o this) as [_ Hcounter].
  destruct (Hcounter Hrange) as [Hrange' Hupto].
  pose proof (proj1 (run_counter ops (step o this))) as Hle.
  apply IH; [done| |done|by apply Hstep].
  apply ids_upto_below; [by apply Hupto, ids_below_upto|]. left. lia.
Qed.

Lemma ids_below_fresh (this : TaskManager) :
  ids_below this -> nextId this ∉ (Task.id <$> tasks this).
Proof.
  unfold ids_below. rewrite Forall_forall.
  intros H (t & Heq & Hin)%list_elem_of_fmap.
  specialize (H t Hin). simpl in H. lia.
Qed.

(** ** Adding a task *)



Lemma reachable_run (ops : list op) : reachable (run ops first_visit).
Proof. exists ∅, first_visit, ops. done. Qed.


(** ** Ids that are not in the store *)

(** C6. For an id that no task of the store has, [toggleTaskCompletion] and
    [deleteTask] return [null] and leave the state, and so the collection,
    as it was. *)
Theorem not_found_spec (this : TaskManager) (id : value) (now : jsstring) :
  (forall task, task ∈ tasks this -> VNum (Task.id task) <> id) ->
  toggleTaskCompletion id now this = (None, this)
  /\ deleteTask id this = (None, this).
Proof.
  intros Hid.
  assert (list_find (fun task => VNum (Task.id task) = id) (tasks this) = None)
    as Hfind.
  { apply list_find_None, Forall_forall. exact Hid. }
  unfold toggleTaskCompletion, deleteTask. by rewrite Hfind.
Qed.

Lemma not_found_spec_witness :
  toggleTaskCompletion (VNum 7) tuesday two_tasks = (None, two_tasks)
  /\ deleteTask (VNum 7) two_tasks = (None, two_tasks).
Proof.
  apply (not_found_spec two_tasks (VNum 7) tuesday).
  intros task Hin. vm_compute in Hin.
  repeat (apply elem_of_cons in Hin as [->|Hin]; [discriminate|]).
  by apply elem_of_nil in Hin.
Defined.

(** ** Persistence *)

Lemma persisted_saveTasks (this : TaskManager) : persisted (saveTasks this).
Proof. unfold persisted, saveTasks. simpl. apply lookup_insert_eq. Qed.

Lemma addTask_returns (this : TaskManager) (text : jsstring)
    (date priority : value) (now : jsstring) :
  trim text <> [] ->
  exists task this',
    addTask text date priority now this = (Return task, this')
    /\ Task.id task = nextId this
    /\ nextId this' = increment (nextId this)
    /\ tasks this' = tasks this ++ [task].
Proof.
  intros Htrim. unfold addTask. destruct (trim text); [done|].
  by eexists _, _.
Qed.

(** [find] and [findIndex] find a task when a task of the store has the
    id. *)
Lemma find_existing (this : TaskManager) (task : Task) :
  task ∈ tasks this ->
  exists index found,
    list_find (fun t => VNum (Task.id t) = VNum (Task.id task)) (tasks this)
    = Some (index, found)
    /\ Task.id found = Task.id task
    /\ tasks this !! index = Some found.
Proof.
  intros Hin.
  destruct (list_find_elem_of
              (fun t => VNum (Task.id t) = VNum (Task.id task))
              (tasks this) task Hin eq_refl) as [[index found] Hfind].
  exists index, found. split; [done|].
  apply list_find_Some in Hfind as (Hi & [= Hid] & _). done.
Qed.

(** C7. [addTask] with a text that is not empty when trimmed,
    [toggleTaskCompletion] and [deleteTask] with the id of a task of the
    store, and [clearCompletedTasks] return, and when they return the item
    stored under ["tasks"] is the serialization of the whole collection of
    the state they return, whatever was stored before.  The same holds
    whenever [toggleTaskCompletion] or [deleteTask] return a task. *)
Theorem mutation_persists (this : TaskManager) :
  (forall text date priority now,
      trim text <> [] ->
      exists task this',
        addTask text date priority now this = (Return task, this')
        /\ persisted this')
  /\ (forall existing now,
        existing ∈ tasks this ->
        exists task this',
          toggleTaskCompletion (VNum (Task.id existing)) now this
          = (Some task, this')
          /\ persisted this')
  /\ (forall existing,
        existing ∈ tasks this ->
        exists task this',
          deleteTask (VNum (Task.id existing)) this = (Some task, this')
          /\ persisted this')
  /\ (exists removed this',
        clearCompletedTasks this = (removed, this') /\ persisted this')
  /\ (forall text date priority now task this',
        addTask text date priority now this = (Return task, this') ->
        persisted this')
  /\ (forall id now task this',
        toggleTaskCompletion id now this = (Some task, this') ->
        persisted this')
  /\ (forall id task this',
        deleteTask id this = (Some task, this') -> persisted this').
Proof.
  split_and!.
  - intros text date priority now Htrim.
    destruct (addTask_returns this text date priority now Htrim)
      as (task & this' & Hadd & _).
    exists task, this'. split; [done|]. revert Hadd. unfold addTask.
    destruct (trim text); [done|]. intros [= _ <-]. apply persisted_saveTasks.
  - intros existing now Hin.
    destruct (find_existing _ _ Hin) as (index & found & Hfind & _).
    unfold toggleTaskCompletion. rewrite Hfind.
    eexists _, _. split; [done|]. apply persisted_saveTasks.
  - intros existing Hin.
    destruct (find_existing _ _ Hin) as (index & found & Hfind & _).
    unfold deleteTask. rewrite Hfind.
    eexists _, _. split; [done|]. apply persisted_saveTasks.
  - eexists _, _. split; [done|]. apply persisted_saveTasks.
  - intros text date priority now task this'. unfold addTask.
    destruct (trim text); [done|]. intros [= _ <-]. apply persisted_saveTasks.
  - intros id now task this'. unfold toggleTaskCompletion.
    destruct (list_find _ _) as [[i t]|]; [|done].
    intros [= _ <-]. apply persisted_saveTasks.
  - intros id task this'. unfold deleteTask.
    destruct (list_find _ _) as [[i t]|]; [|done].
    intros [= _ <-]. apply persisted_saveTasks.
Qed.

(** The store that is constructed from a text that [saveTasks] does not
    write holds something else than its serialization, until a call
    writes it. *)
Lemma mutation_persists_witness :
  ~ persisted spaced
  /\ (exists task this',
        deleteTask (VNum 1) spaced = (Some task, this') /\ persisted this')
  /\ (exists task this',
        toggleTaskCompletion (VNum 1) tuesday spaced = (Some task, this')
        /\ persisted this').
Proof.
  destruct (mutation_persists spaced) as (_ & Htoggle & Hdelete & _).
  split_and!.
  - unfold persisted. vm_compute. discriminate.
  - apply (Hdelete
             {| Task.id := 1; Task.text := js "Buy milk";
                Task.completed := false; Task.date := VNull;
                Task.priority := VStr (js "medium"); Task.createdAt := monday;
                Task.completedAt := VUndefined |}).
    apply elem_of_cons. by left.
  - apply (Htoggle
             {| Task.id := 1; Task.text := js "Buy milk";
                Task.completed := false; Task.date := VNull;
                Task.priority := VStr (js "medium"); Task.createdAt := monday;
                Task.completedAt := VUndefined |}).
    apply elem_of_cons. by left.
Defined.

(** ** Clearing the completed tasks *)

Lemma filter_completed_pending (l : list Task) :
  filter (fun task => Task.completed task = true)
    (filter (fun task => Task.completed task <> true) l) = [].
Proof.
  induction l as [|t l IH]; [done|].
  rewrite (filter_cons (fun task => Task.completed task <> true)).
  destruct (decide (Task.completed t <> true)) as [Hn|Hn]; [|done].
  rewrite filter_cons. by destruct (decide (Task.completed t = true)).
Qed.

Lemma filter_pending_pending (l : list Task) :
  filter (fun task => Task.completed task <> true)
    (filter (fun task => Task.completed task <> true) l)
  = filter (fun task => Task.completed task <> true) l.
Proof.
  induction l as [|t l IH]; [done|].
  rewrite (filter_cons _ t l).
  destruct (decide (Task.completed t <> true)) as [Hn|Hn]; [|done].
  rewrite filter_cons. destruct (decide _); [|done]. by rewrite IH.
Qed.

(** C4. [clearCompletedTasks] returns the tasks that were completed before
    the call, in their order in the store; after it no task of the store is
    completed and the pending tasks are the ones before the call. *)
Theorem clearCompletedTasks_spec (this : TaskManager) :
  let '(removed, this') := clearCompletedTasks this in
  removed = filter (fun task => Task.completed task = true) (tasks this)
  /\ (forall task,
        task ∈ removed <-> task ∈ tasks this /\ Task.completed task = true)
  /\ removed `sublist_of` tasks this
  /\ getCompletedTasks this' = []
  /\ getPendingTasks this' = getPendingTasks this.
Proof.
  unfold clearCompletedTasks, getCompletedTasks, getPendingTasks. simpl.
  split_and!.
  - done.
  - intros task. rewrite list_elem_of_filter. tauto.
  - apply sublist_filter.
  - apply filter_completed_pending.
  - apply filter_pending_pending.
Qed.


(** ** The priority of a new task *)

(** C8 as claimed fails: a priority that is not recognized is stored as it
    is given. *)
Lemma addTask_priority_counterexample :
  ~ recognized_priority (VStr (js "urgent"))
  /\ exists task this',
      addTask (js "Pay rent") VNull (VStr (js "urgent")) monday first_visit
      = (Return task, this')
      /\ Task.priority task = VStr (js "urgent")
      /\ Task.priority task <> VStr (js "medium")
      /\ localStorage this' !! "tasks"%string
         = Some (apos "[{'id':1,'text':'Pay rent','completed':false,'date':null,'priority':'urgent','createdAt':'2024-01-01T09:00:00.000Z'}]").
Proof.
  split.
  - intros [H|[H|H]]; vm_compute in H; discriminate.
  - eexists _, _. split; [reflexivity|]. split_and!; [done|done|].
    vm_compute. reflexivity.
Qed.

(** C8, amended. The priority of the created task is ["medium"] when the
    priority argument is absent; an argument that is given is stored as it
    is, whether it is a recognized value or not. *)
Theorem addTask_priority (this : TaskManager) (text : jsstring)
    (date priority : value) (now : jsstring) (task : Task)
    (this' : TaskManager) :
  addTask text date priority now this = (Return task, this') ->
  (priority = VUndefined -> Task.priority task = VStr (js "medium"))
  /\ (priority <> VUndefined -> Task.priority task = priority).
Proof.
  unfold addTask. destruct (trim text); [done|]. intros [= <- _]. simpl.
  by destruct priority.
Qed.

Lemma addTask_priority_witness :
  Task.priority
    {| Task.id := 3; Task.text := js "Call Ana"; Task.completed := false;
       Task.date := VNull; Task.priority := VStr (js "medium");
       Task.createdAt := tuesday; Task.completedAt := VUndefined |}
  = VStr (js "medium").
Proof.
  refine (proj1 (addTask_priority two_tasks (js "Call Ana") VUndefined
                   VUndefined tuesday _ _ _) eq_refl).
  vm_compute. reflexivity.
Defined.

(** ** Loading *)

(** C2 as claimed fails: a stored text that is not JSON makes [JSON.parse]
    throw, and the exception leaves [loadTasks] and the constructor. *)
Lemma loadTasks_counterexample :
  let storage : gmap string jsstring :=
    {[ "tasks"%string := apos "[{'id':1,'text':'Buy milk'" ]} in
  loadTasks storage = Raise SyntaxError
  /\ loadTasks storage <> Ok (JArr [])
  /\ new_TaskManager storage = Raise SyntaxError.
Proof. vm_compute. by split_and!. Qed.

(** C2, amended. [loadTasks] gives the empty collection when nothing is
    stored under ["tasks"] and when the empty string is; for any other
    stored text it gives what [JSON.parse] gives, and when that is a
    [SyntaxError] the constructor throws it. *)
Theorem loadTasks_spec (storage : gmap string jsstring) :
  (storage !! "tasks"%string = None \/ storage !! "tasks"%string = Some [] ->
   loadTasks storage = Ok (JArr [])
   /\ new_TaskManager storage
      = Ok {| tasks := []; nextId := 1; localStorage := storage |})
  /\ (forall text,
        storage !! "tasks"%string = Some text -> text <> [] ->
        loadTasks storage = JSON_parse text
        /\ (JSON_parse text = Raise SyntaxError ->
            new_TaskManager storage = Raise SyntaxError)).
Proof.
  unfold new_TaskManager, loadTasks. split.
  - by intros [-> | ->].
  - intros text -> Hne. destruct text as [|c text]; [done|].
    split; [done|]. by intros ->.
Qed.

Lemma loadTasks_spec_witness :
  loadTasks ∅ = Ok (JArr [])
  /\ loadTasks {[ "tasks"%string := js "{" ]} = JSON_parse (js "{").
Proof.
  split.
  - apply (proj1 (loadTasks_spec ∅)). by left.
  - refine (proj1 (proj2 (loadTasks_spec _) (js "{") _ _)).
    + vm_compute. reflexivity.
    + discriminate.
Defined.

(** ** Completing a task *)

Lemma find_unique_id (l : list Task) (index : nat) (task : Task) :
  NoDup (Task.id <$> l) -> l !! index = Some task ->
  list_find (fun t => VNum (Task.id t) = VNum (Task.id task)) l
  = Some (index, task).
Proof.
  intros Hnd Hi. apply list_find_Some. split_and!; [done|done|].
  intros j y Hj Hlt [= Heq].
  assert (j = index); [|lia].
  apply (NoDup_lookup _ _ _ (Task.id task) Hnd).
  - by rewrite list_lookup_fmap, Hj, <- Heq.
  - by rewrite list_lookup_fmap, Hi.
Qed.

Lemma ids_insert_toggle (l : list Task) (index : nat) (task : Task)
    (now : jsstring) :
  l !! index = Some task ->
  Task.id <$> <[index := toggle now task]> l = Task.id <$> l.
Proof.
  intros Hi. rewrite list_fmap_insert. apply list_insert_id.
  by rewrite list_lookup_fmap, Hi.
Qed.

Lemma toggleTaskCompletion_found (this : TaskManager) (index : nat)
    (task : Task) (now : jsstring) :
  NoDup (Task.id <$> tasks this) -> tasks this !! index = Some task ->
  toggleTaskCompletion (VNum (Task.id task)) now this
  = (Some (toggle now task),
     saveTasks {| tasks := <[index := toggle now task]> (tasks this);
                  nextId := nextId this;
                  localStorage := localStorage this |}).
Proof.
  intros Hnd Hi. unfold toggleTaskCompletion.
  by rewrite (find_unique_id _ _ _ Hnd Hi).
Qed.

(** What a call can do to the tasks of the store: a task of the state
    after the call was there before it, or is the pending task that
    [addTask] made, or is a task [toggleTaskCompletion] found, toggled. *)
Lemma step_tasks (o : op) (this : TaskManager) (task' : Task) :
  task' ∈ tasks (step o this) ->
  task' ∈ tasks this
  \/ (exists text date priority now,
        o = AddTask text date priority now
        /\ Task.completed task' = false
        /\ Task.completedAt task' = VUndefined)
  \/ (exists id now task,
        o = ToggleTaskCompletion id now
        /\ task ∈ tasks this
        /\ VNum (Task.id task) = id
        /\ task' = toggle now task).
Proof.
  destruct o as [text date priority now|id now|id|]; simpl.
  - unfold addTask. destruct (trim text); simpl; [by left|].
    intros [H|H%list_elem_of_singleton]%elem_of_app; [by left|].
    right; left. exists text, date, priority, now. by subst.
  - find_cases i t Hfind; [|by left].
    apply list_find_Some in Hfind as (Hi & Hid & _).
    intros [j Hj]%list_elem_of_lookup.
    apply list_lookup_insert_Some in Hj as [(-> & <- & _)|[_ Hj]].
    + right; right. exists id, now, t. split_and!; try done.
      by eapply list_elem_of_lookup_2.
    + left. by eapply list_elem_of_lookup_2.
  - find_cases i t Hfind; [|by left].
    intros H%list_elem_of_delete_inv. by left.
  - intros [_ H]%list_elem_of_filter. by left.
Qed.

(** C3. In a store whose ids are unique, [toggleTaskCompletion] on the id
    of a pending task returns the task completed, with [completedAt] the
    time of the call, which is not [null], and puts it in the place of the
    pending one; a second call returns it pending again with [completedAt]
    [null].  No other call changes [completed]: a task of the store after
    any call is a task of the store before it, or the pending task that
    [addTask] made, or the toggled form of a task that
    [toggleTaskCompletion] found. *)
Theorem toggleTaskCompletion_spec (this : TaskManager) (index : nat)
    (task : Task) (now now' : jsstring) :
  NoDup (Task.id <$> tasks this) ->
  tasks this !! index = Some task ->
  Task.completed task = false ->
  let completed := toggle now task in
  let pending := toggle now' completed in
  let first := toggleTaskCompletion (VNum (Task.id task)) now this in
  let second := toggleTaskCompletion (VNum (Task.id task)) now' first.2 in
  (first.1 = Some completed
   /\ tasks first.2 = <[index := completed]> (tasks this)
   /\ Task.completed completed = true
   /\ Task.completedAt completed = VStr now
   /\ Task.completedAt completed <> VNull)
  /\ (second.1 = Some pending
      /\ tasks second.2 = <[index := pending]> (tasks this)
      /\ Task.completed pending = false
      /\ Task.completedAt pending = VNull)
  /\ (forall o task',
        task' ∈ tasks (step o this) ->
        task' ∈ tasks this
        \/ (exists text date priority now,
              o = AddTask text date priority now
              /\ Task.completed task' = false
              /\ Task.completedAt task' = VUndefined)
        \/ (exists id now task,
              o = ToggleTaskCompletion id now
              /\ task ∈ tasks this
              /\ VNum (Task.id task) = id
              /\ task' = toggle now task)).
Proof.
  intros Hnd Hi Hpending. simpl.
  rewrite (toggleTaskCompletion_found this index task now Hnd Hi). simpl.
  assert (index < length (tasks this))%nat as Hlt by by eapply lookup_lt_Some.
  split_and!.
  - done.
  - done.
  - by rewrite Hpending.
  - by rewrite Hpending.
  - by rewrite Hpending.
  - change (Task.id task) with (Task.id (toggle now task)).
    rewrite (toggleTaskCompletion_found _ index (toggle now task) now').
    + done.
    + simpl. by rewrite ids_insert_toggle.
    + simpl. by apply list_lookup_insert_eq.
  - change (Task.id task) with (Task.id (toggle now task)).
    rewrite (toggleTaskCompletion_found _ index (toggle now task) now').
    + simpl. apply list_insert_insert_eq.
    + simpl. by rewrite ids_insert_toggle.
    + simpl. by apply list_lookup_insert_eq.
  - by rewrite Hpending.
  - by rewrite Hpending.
  - intros o task'. apply step_tasks.
Qed.

(** The ids stay unique in a session that starts with unique ids. *)
Lemma step_NoDup (o : op) (this : TaskManager) :
  ids_below this -> NoDup (Task.id <$> tasks this) ->
  NoDup (Task.id <$> tasks (step o this)).
Proof.
  intros Hbelow Hnd.
  destruct o as [text date priority now|id now|id|]; simpl.
  - unfold addTask. destruct (trim text); simpl; [done|].
    rewrite fmap_app. apply NoDup_app. split_and!; [done| |apply NoDup_singleton].
    intros x Hx ->%list_elem_of_singleton.
    by apply (ids_below_fresh this Hbelow).
  - find_cases i t Hfind; [|done].
    apply list_find_Some in Hfind as (Hi & _ & _).
    by rewrite ids_insert_toggle.
  - find_cases i t Hfind; [|done].
    eapply sublist_NoDup; [exact Hnd|]. apply fmap_sublist, sublist_delete.
  - eapply sublist_NoDup; [exact Hnd|]. apply fmap_sublist, sublist_filter.
Qed.

Lemma run_NoDup (ops : list op) (this : TaskManager) :
  counter_range this -> ids_below this -> nextId (run ops this) < 2 ^ 53 ->
  NoDup (Task.id <$> tasks this) ->
  NoDup (Task.id <$> tasks (run ops this)).
Proof.
  intros Hrange Hbelow Hlast Hnd.
  apply (run_below (fun this => NoDup (Task.id <$> tasks this))); try done.
  intros o this'. apply step_NoDup.
Qed.

Lemma toggleTaskCompletion_spec_witness :
  (toggleTaskCompletion (VNum 2) tuesday two_tasks).1
  = Some {| Task.id := 2; Task.text := js "Ship release";
            Task.completed := true; Task.date := VStr (js "2024-01-01");
            Task.priority := VStr (js "high"); Task.createdAt := monday;
            Task.completedAt := VStr tuesday |}.
Proof.
  refine (proj1 (proj1
    (toggleTaskCompletion_spec two_tasks 1
       {| Task.id := 2; Task.text := js "Ship release";
          Task.completed := false; Task.date := VStr (js "2024-01-01");
          Task.priority := VStr (js "high"); Task.createdAt := monday;
          Task.completedAt := VUndefined |} tuesday tuesday _ _ _))).
  - apply (run_NoDup scenario first_visit);
      [by vm_compute|constructor|by vm_compute|constructor].
  - vm_compute. reflexivity.
  - reflexivity.
Defined.

(** ** The stored fields *)

(** C9 as claimed fails: the record of a task that was created and never
    toggled has no [completedAt]. *)
Lemma serialized_completedAt_counterexample :
  let this := (addTask (js "Buy milk") VUndefined VUndefined monday first_visit).2 in
  localStorage this !! "tasks"%string
  = Some (apos "[{'id':1,'text':'Buy milk','completed':false,'date':null,'priority':'medium','createdAt':'2024-01-01T09:00:00.000Z'}]")
  /\ exists task, tasks this = [task]
       /\ field "completedAt" task = None
       /\ field "completedAt" task <> Some JNull
       /\ js "completedAt" ∉ keys task.
Proof.
  split; [vm_compute; reflexivity|].
  eexists. split; [reflexivity|]. split_and!; [done|done|].
  vm_compute. intros H.
  repeat (apply elem_of_cons in H as [H|H]; [discriminate|]).
  by apply elem_of_nil in H.
Qed.

Lemma member_defined (key : string) (v : value) :
  v <> VUndefined -> exists j, member key v = [(js key, j)] /\ scalar j = Some v.
Proof. destruct v; [done|eauto..]. Qed.

(** A call leaves the state as it was, or ends with [saveTasks]. *)
Lemma step_saved (o : op) (this : TaskManager) :
  step o this = this \/ exists this', step o this = saveTasks this'.
Proof.
  destruct o as [text date priority now|id now|id|]; simpl.
  - unfold addTask. destruct (trim text); simpl; eauto.
  - find_cases i t Hfind; eauto.
  - find_cases i t Hfind; eauto.
  - unfold clearCompletedTasks. simpl. eauto.
Qed.

Lemma record_fields (task : Task) :
  defined_fields task ->
  (exists date priority,
     field "id" task = Some (JNum (Task.id task))
     /\ field "text" task = Some (JStr (Task.text task))
     /\ field "completed" task = Some (JBool (Task.completed task))
     /\ field "date" task = Some date
     /\ field "priority" task = Some priority
     /\ field "createdAt" task = Some (JStr (Task.createdAt task)))
  /\ match Task.completedAt task with
     | VUndefined => keys task = created_keys
                     /\ field "completedAt" task = None
     | v => keys task = created_keys ++ [js "completedAt"]
            /\ exists j, field "completedAt" task = Some j
                         /\ scalar j = Some v
     end.
Proof.
  intros [Hd Hp].
  destruct (member_defined "date" _ Hd) as (jd & Ejd & _).
  destruct (member_defined "priority" _ Hp) as (jp & Ejp & _).
  unfold keys, field, taskMembers. rewrite Ejd, Ejp.
  split; [by exists jd, jp|].
  destruct (Task.completedAt task); simpl; split; try done; by eexists.
Qed.

Lemma record_shape_defined (task : Task) :
  defined_fields task -> record_shape task.
Proof.
  intros [_ H]%record_fields. unfold record_shape.
  destruct (Task.completedAt task); destruct H as [Hk Hf];
    [by left|right; split; [done|]; destruct Hf as (j & -> & _); eauto..].
Qed.

Lemma decodeTask_defined (j : json) (task : Task) :
  decodeTask j = Some task -> defined_fields task.
Proof.
  unfold decodeTask, defined_fields. intros H.
  repeat (case_match; try done); simplify_option_eq;
    repeat match goal with
           | H : scalar ?x = Some _ |- _ => destruct x; simplify_eq/=
           end; done.
Qed.

Lemma new_TaskManager_defined storage this :
  new_TaskManager storage = Ok this -> Forall defined_fields (tasks this).
Proof.
  unfold new_TaskManager.
  destruct (loadTasks storage) as [j| |]; simpl; [|done..].
  destruct (decodeTasks j) as [l|] eqn:Hdecode; [|done]. intros [= <-]. simpl.
  destruct j as [| | | |js|]; try done. simpl in Hdecode.
  apply mapM_Some in Hdecode. induction Hdecode as [|j task js l Hj _ IH].
  - constructor.
  - constructor; [by eapply decodeTask_defined|done].
Qed.

Lemma toggle_defined (now : jsstring) (task : Task) :
  defined_fields task -> defined_fields (toggle now task).
Proof. done. Qed.

Lemma step_defined (o : op) (this : TaskManager) :
  Forall defined_fields (tasks this) ->
  Forall defined_fields (tasks (step o this)).
Proof.
  intros H.
  destruct o as [text date priority now|id now|id|]; simpl.
  - unfold addTask. destruct (trim text); simpl; [done|].
    apply Forall_app. split; [done|]. apply Forall_singleton.
    split; simpl; [by destruct date|by destruct priority].
  - find_cases i t Hfind; [|done].
    apply list_find_Some in Hfind as (Hi & _ & _).
    apply Forall_insert; [done|]. apply toggle_defined.
    by apply (Forall_lookup_1 _ _ _ _ H Hi).
  - find_cases i t Hfind; [|done]. by apply Forall_delete.
  - apply Forall_forall.
    intros t [_ Ht]%list_elem_of_filter. revert t Ht. by apply Forall_forall.
Qed.

Lemma reachable_defined (this : TaskManager) :
  reachable this -> Forall defined_fields (tasks this).
Proof.
  intros (storage & this0 & ops & Hnew & ->).
  apply new_TaskManager_defined in Hnew. revert this0 Hnew.
  induction ops as [|o ops IH]; intros this0 H; [done|].
  simpl. by apply IH, step_defined.
Qed.

Lemma toggle_completedAt (now : jsstring) (task : Task) :
  defined_fields task ->
  keys (toggle now task) = created_keys ++ [js "completedAt"]
  /\ field "completedAt" (toggle now task)
     = Some (if Task.completed (toggle now task) then JStr now else JNull).
Proof.
  intros Hd. apply (toggle_defined now) in Hd.
  destruct (record_fields _ Hd) as [_ H]. unfold toggle in *. simpl in *.
  destruct (negb (Task.completed task)); destruct H as (Hk & j & Hj & Hs);
    (split; [done|]); rewrite Hj; f_equal; destruct j; by simplify_eq/=.
Qed.

(** C9, amended. In a session, when a call has changed the state, the
    item under ["tasks"] is the array of the records of the tasks.  Each
    record has exactly the properties [id], a number, [text], a string,
    [completed], a boolean, [date], [priority] and [createdAt], a string,
    and, only when the task has been toggled, [completedAt]: the record
    of the task that [addTask] returns has no [completedAt], and no call
    gives it one but a [toggleTaskCompletion] that finds the task, which
    writes the time of the call as a string when it completes the task
    and [null] when it makes the task pending again. *)
Theorem serialized_fields (this : TaskManager) :
  reachable this ->
  Forall record_shape (tasks this)
  /\ (forall task,
        task ∈ tasks this ->
        exists date priority,
          field "id" task = Some (JNum (Task.id task))
          /\ field "text" task = Some (JStr (Task.text task))
          /\ field "completed" task = Some (JBool (Task.completed task))
          /\ field "date" task = Some date
          /\ field "priority" task = Some priority
          /\ field "createdAt" task = Some (JStr (Task.createdAt task)))
  /\ (forall o,
        step o this <> this ->
        localStorage (step o this) !! "tasks"%string
        = Some (JSON_stringify (JArr (taskToJSON <$> tasks (step o this)))))
  /\ (forall text date priority now,
        trim text <> [] ->
        exists task this',
          addTask text date priority now this = (Return task, this')
          /\ localStorage this' !! "tasks"%string
             = Some (JSON_stringify (JArr (taskToJSON <$> tasks this')))
          /\ tasks this' = tasks this ++ [task]
          /\ keys task = created_keys
          /\ field "completedAt" task = None)
  /\ (forall existing now,
        existing ∈ tasks this ->
        exists index task this',
          toggleTaskCompletion (VNum (Task.id existing)) now this
          = (Some task, this')
          /\ localStorage this' !! "tasks"%string
             = Some (JSON_stringify (JArr (taskToJSON <$> tasks this')))
          /\ tasks this' !! index = Some task
          /\ keys task = created_keys ++ [js "completedAt"]
          /\ field "completedAt" task
             = Some (if Task.completed task then JStr now else JNull))
  /\ (forall o task',
        task' ∈ tasks (step o this) ->
        task' ∈ tasks this
        \/ (exists text date priority now,
              o = AddTask text date priority now
              /\ keys task' = created_keys
              /\ field "completedAt" task' = None)
        \/ (exists id now task,
              o = ToggleTaskCompletion id now
              /\ task ∈ tasks this
              /\ VNum (Task.id task) = id
              /\ task' = toggle now task
              /\ keys task' = created_keys ++ [js "completedAt"]
              /\ field "completedAt" task'
                 = Some (if Task.completed task' then JStr now else JNull)))
  /\ (forall o,
        Forall completedAt_written (tasks this) ->
        Forall completedAt_written (tasks (step o this))).
Proof.
  intros Hreach. pose proof (reachable_defined _ Hreach) as Hdef.
  assert (forall o task',
            task' ∈ tasks (step o this) ->
            task' ∈ tasks this
            \/ (exists text date priority now,
                  o = AddTask text date priority now
                  /\ keys task' = created_keys
                  /\ field "completedAt" task' = None)
            \/ (exists id now task,
                  o = ToggleTaskCompletion id now
                  /\ task ∈ tasks this
                  /\ VNum (Task.id task) = id
                  /\ task' = toggle now task
                  /\ keys task' = created_keys ++ [js "completedAt"]
                  /\ field "completedAt" task'
                     = Some (if Task.completed task' then JStr now
                             else JNull))) as Hstep.
  { intros o task' Hin.
    pose proof (step_defined o _ Hdef) as Hdef'.
    rewrite Forall_forall in Hdef, Hdef'.
    destruct (step_tasks _ _ _ Hin)
      as [H|[(text & date & priority & now & -> & _ & Hat)
            |(id & now & task & -> & Htask & Hid & ->)]].
    - by left.
    - right; left. exists text, date, priority, now. split; [done|].
      destruct (record_fields _ (Hdef' _ Hin)) as [_ H].
      by rewrite Hat in H.
    - right; right. exists id, now, task.
      destruct (toggle_completedAt now task (Hdef _ Htask)) as [Hk Hf].
      done. }
  split_and!.
  - eapply Forall_impl; [exact Hdef|]. apply record_shape_defined.
  - intros task Hin. rewrite Forall_forall in Hdef.
    by destruct (record_fields _ (Hdef _ Hin)) as [H _].
  - intros o Hne. destruct (step_saved o this) as [Hsame|[this' ->]]; [done|].
    apply persisted_saveTasks.
  - intros text date priority now Htrim.
    destruct (addTask_returns this text date priority now Htrim)
      as (task & this' & Hadd & _ & _ & Htasks).
    exists task, this'.
    assert (task ∈ tasks (step (AddTask text date priority now) this)) as Hin.
    { simpl. rewrite Hadd. simpl. rewrite Htasks.
      apply elem_of_app. right. by apply list_elem_of_singleton. }
    pose proof (step_defined (AddTask text date priority now) _ Hdef) as Hdef'.
    rewrite Forall_forall in Hdef'. specialize (Hdef' _ Hin).
    destruct (record_fields _ Hdef') as [_ Hrec].
    assert (Task.completedAt task = VUndefined) as Hat.
    { revert Hadd. unfold addTask. destruct (trim text); [done|].
      by intros [= <- _]. }
    rewrite Hat in Hrec. split_and!; try done; try apply Hrec.
    revert Hadd. unfold addTask. destruct (trim text); [done|].
    intros [= _ <-]. apply persisted_saveTasks.
  - intros existing now Hin.
    destruct (find_existing _ _ Hin) as (index & found & Hfind & _ & Hi).
    unfold toggleTaskCompletion. rewrite Hfind.
    rewrite Forall_forall in Hdef.
    destruct (toggle_completedAt now found
                (Hdef _ (list_elem_of_lookup_2 _ _ _ Hi))) as [Hk Hf].
    eexists index, _, _. split_and!; [done| | |done|done].
    + apply persisted_saveTasks.
    + simpl. apply list_lookup_insert_eq. by eapply lookup_lt_Some.
  - exact Hstep.
  - intros o Hall. apply Forall_forall. intros task' Hin.
    rewrite Forall_forall in Hall.
    destruct (Hstep o task' Hin)
      as [H|[(? & ? & ? & ? & _ & _ & Hf)|(? & now & ? & _ & _ & _ & _ & _ & Hf)]].
    + by apply Hall.
    + by left.
    + unfold completedAt_written. rewrite Hf.
      destruct (Task.completed task'); [right; right; by exists now|by right; left].
Qed.

Lemma serialized_fields_witness :
  exists index task this',
    toggleTaskCompletion (VNum 2) tuesday two_tasks = (Some task, this')
    /\ localStorage this' !! "tasks"%string
       = Some (JSON_stringify (JArr (taskToJSON <$> tasks this')))
    /\ tasks this' !! index = Some task
    /\ field "completedAt" task = Some (JStr tuesday).
Proof.
  destruct (proj1 (proj2 (proj2 (proj2 (proj2
              (serialized_fields two_tasks (reachable_run scenario))))))
              {| Task.id := 2; Task.text := js "Ship release";
                 Task.completed := false; Task.date := VStr (js "2024-01-01");
                 Task.priority := VStr (js "high"); Task.createdAt := monday;
                 Task.completedAt := VUndefined |} tuesday)
    as (index & task & this' & Htoggle & Hstored & Hi & _ & Hfield).
  - apply elem_of_cons. right. apply elem_of_cons. by left.
  - exists index, task, this'. split_and!; try done.
    assert (Task.completed task = true) as Hc.
    { assert (toggleTaskCompletion (VNum 2) tuesday two_tasks
              = (Some {| Task.id := 2; Task.text := js "Ship release";
                         Task.completed := true;
                         Task.date := VStr (js "2024-01-01");
                         Task.priority := VStr (js "high");
                         Task.createdAt := monday;
                         Task.completedAt := VStr tuesday |},
                 (toggleTaskCompletion (VNum 2) tuesday two_tasks).2)) as H
        by (vm_compute; reflexivity).
      simpl in Htoggle. rewrite H in Htoggle. by injection Htoggle as <- _. }
    by rewrite Hc in Hfield.
Defined.

(** ** The id counter *)




(** ** Statistics *)

Lemma length_filter_completed (l : list Task) :
  (length (filter (fun task => Task.completed task = true) l)
   + length (filter (fun task => Task.completed task <> true) l)
   = length l)%nat.
Proof.
  induction l as [|t l IH]; [done|].
  rewrite !filter_cons.
  destruct (decide (Task.completed t = true)),
           (decide (Task.completed t <> true)); simpl; try done; lia.
Qed.

(** C5. [getStats] gives the number of tasks as [total], the number of
    completed tasks as [completed], their difference, which is the number of
    pending tasks, as [pending], and as [completionRate] the value of
    [Math.round((completed / total) * 100)] in binary64 when there is a
    task and 0 when there is none.  The rate is an integer between 0 and
    100; for a number of tasks that an array can have it is an integer
    nearest to the exact percentage, and the exact percentage rounded half
    up unless that is a tie between two integers. *)
Theorem getStats_spec (this : TaskManager) :
  let stats := getStats this in
  let total := Z.of_nat (length (tasks this)) in
  let completed := Z.of_nat (length (getCompletedTasks this)) in
  Stats.total stats = total
  /\ Stats.completed stats = completed
  /\ Stats.pending stats = total - completed
  /\ Stats.pending stats = Z.of_nat (length (getPendingTasks this))
  /\ (0 < total ->
      Stats.completionRate stats
      = Math_round (mul64 (div64 (inject_Z completed) (inject_Z total)) 100))
  /\ (total = 0 -> Stats.completionRate stats = 0)
  /\ 0 <= Stats.completionRate stats <= 100
  /\ (total < 2 ^ 32 ->
      - total
      <= 2 * (Stats.completionRate stats * total - 100 * completed)
      <= total)
  /\ (0 < total < 2 ^ 32 ->
      (200 * completed + total) mod (2 * total) <> 0 ->
      Stats.completionRate stats = (200 * completed + total) / (2 * total)).
Proof.
  pose proof (length_filter_completed (tasks this)) as Hsum.
  unfold getStats, getCompletedTasks, getPendingTasks. simpl.
  set (total := Z.of_nat (length (tasks this))).
  set (completed :=
         Z.of_nat (length (filter (fun task => Task.completed task = true)
                             (tasks this)))).
  assert (0 <= completed <= total) as Hc by lia.
  destruct (Z.ltb_spec 0 total) as [Hpos|Hzero].
  - pose proof (completionRate_range completed total Hc Hpos) as Hrange.
    pose proof (completionRate_nearest completed total Hc Hpos) as Hnear.
    pose proof (completionRate_exact completed total Hc Hpos) as Hexact.
    repeat split; try done; try lia; auto.
  - repeat split; try done; lia.
Qed.

Lemma getStats_spec_witness :
  - 2 <= 2 * (Stats.completionRate (getStats two_tasks) * 2 - 100 * 1) <= 2.
Proof.
  refine (proj1 (proj2 (proj2 (proj2 (proj2 (proj2 (proj2 (proj2
            (getStats_spec two_tasks)))))))) _).
  vm_compute. reflexivity.
Defined.

(** The scenario of the specification. *)
Example getStats_scenario :
  getStats two_tasks
  = {| Stats.total := 2; Stats.completed := 1; Stats.pending := 1;
       Stats.completionRate := 50 |}.
Proof. vm_compute. reflexivity. Qed.

(** A tie of the exact percentage: 23 of 40 is 57.5, the binary64 product
    is just below it, and the rate is 57. *)
Example completionRate_tie :
  Math_round (mul64 (div64 23 40) 100) = 57
  /\ Qred (mul64 (div64 23 40) 100)
     = (8092405580431359 # 140737488355328)%Q.
Proof. vm_compute. split; reflexivity. Qed.

(** * More of the store *)

(** ** Reading back what [JSON.stringify] wrote *)

Lemma hex_value_digit (n : N) : (n < 16)%N -> hex_value (hex_digit n) = Some n.
Proof.
  intros H. assert (n ∈ (N.of_nat <$> seq 0 16)) as Hn.
  { apply list_elem_of_fmap. exists (N.to_nat n). split; [lia|].
    apply elem_of_seq. lia. }
  vm_compute in Hn.
  repeat (apply elem_of_cons in Hn as [->|Hn]; [reflexivity|]).
  by apply elem_of_nil in Hn.
Qed.

Lemma hex4_unicode_escape (c : N) (rest : jsstring) :
  (c < 65536)%N ->
  exists h1 h2 h3 h4,
    unicode_escape c = [92; 117; h1; h2; h3; h4]%N
    /\ hex4 h1 h2 h3 h4 = Some c.
Proof.
  intros Hc. eexists _, _, _, _. split; [reflexivity|]. unfold hex4.
  rewrite !hex_value_digit by (apply N.mod_lt; lia). simpl.
  f_equal.
  replace (c / 256)%N with (c / 16 / 16)%N by (rewrite N.Div0.div_div; done).
  replace (c / 4096)%N with (c / 16 / 16 / 16)%N
    by (rewrite !N.Div0.div_div; done).
  pose proof (N.div_mod' c 16). pose proof (N.div_mod' (c / 16) 16).
  pose proof (N.div_mod' (c / 16 / 16) 16).
  pose proof (N.mod_lt c 16). pose proof (N.mod_lt (c / 16) 16).
  pose proof (N.mod_lt (c / 16 / 16) 16).
  set (a := (c / 16)%N) in *. set (b := (a / 16)%N) in *.
  set (d := (b / 16)%N) in *.
  set (r0 := (c mod 16)%N) in *. set (r1 := (a mod 16)%N) in *.
  set (r2 := (b mod 16)%N) in *.
  assert (d < 16)%N as Hd by lia.
  rewrite (N.mod_small d 16 Hd). lia.
Qed.

Lemma parse_unicode_escape (c : N) (s rest text : jsstring) :
  (c < 65536)%N ->
  parse_string_chars text = Ok (s, rest) ->
  parse_string_chars (unicode_escape c ++ text) = Ok (c :: s, rest).
Proof.
  intros Hc Htext.
  destruct (hex4_unicode_escape c rest Hc) as (h1 & h2 & h3 & h4 & -> & Hhex).
  simpl. by rewrite Hhex, Htext.
Qed.

Lemma surrogate_range (c : N) :
  is_lead_surrogate c = true \/ is_trail_surrogate c = true ->
  (55296 <= c <= 57343)%N.
Proof.
  unfold is_lead_surrogate, is_trail_surrogate.
  intros [[H1 H2]%andb_prop | [H1 H2]%andb_prop];
    apply N.leb_le in H1, H2; lia.
Qed.

(** A string literal that [QuoteJSONString] wrote is read back as the
    string. *)
Lemma parse_quote_chars (s rest : jsstring) :
  parse_string_chars (quote_chars s ++ 34%N :: rest) = Ok (s, rest).
Proof.
  remember (length s) as n eqn:Hn. revert s Hn.
  induction n as [n IH] using lt_wf_ind. intros s Hn.
  destruct s as [|c r]; [done|]. simpl in Hn.
  assert (forall r', (length r' < n)%nat ->
            parse_string_chars (quote_chars r' ++ 34%N :: rest) = Ok (r', rest))
    as IH' by (intros r' Hr'; by eapply IH).
  pose proof (IH' r ltac:(lia)) as IHr.
  simpl quote_chars.
  destruct (c =? 8)%N eqn:E8.
  { apply N.eqb_eq in E8 as ->. simpl. by rewrite IHr. }
  destruct (c =? 9)%N eqn:E9.
  { apply N.eqb_eq in E9 as ->. simpl. by rewrite IHr. }
  destruct (c =? 10)%N eqn:E10.
  { apply N.eqb_eq in E10 as ->. simpl. by rewrite IHr. }
  destruct (c =? 12)%N eqn:E12.
  { apply N.eqb_eq in E12 as ->. simpl. by rewrite IHr. }
  destruct (c =? 13)%N eqn:E13.
  { apply N.eqb_eq in E13 as ->. simpl. by rewrite IHr. }
  destruct (c =? 34)%N eqn:E34.
  { apply N.eqb_eq in E34 as ->. simpl. by rewrite IHr. }
  destruct (c =? 92)%N eqn:E92.
  { apply N.eqb_eq in E92 as ->. simpl. by rewrite IHr. }
  destruct (c <? 32)%N eqn:E32.
  { apply (parse_unicode_escape c r rest _); [|done].
    apply N.ltb_lt in E32. lia. }
  assert (parse_string_chars (c :: quote_chars r ++ 34%N :: rest)
          = Ok (c :: r, rest)) as Hraw.
  { simpl. by rewrite E34, E92, E32, IHr. }
  destruct (is_lead_surrogate c) eqn:Elead.
  { assert (c < 65536)%N as Hc.
    { pose proof (surrogate_range c (or_introl Elead)). lia. }
    destruct r as [|d r'].
    - by apply (parse_unicode_escape c [] rest _).
    - destruct (is_trail_surrogate d) eqn:Etrail.
      + pose proof (surrogate_range d (or_intror Etrail)) as Hd.
        assert ((d =? 34)%N = false) as D34 by (apply N.eqb_neq; lia).
        assert ((d =? 92)%N = false) as D92 by (apply N.eqb_neq; lia).
        assert ((d <? 32)%N = false) as D32 by (apply N.ltb_ge; lia).
        simpl. rewrite E34, E92, E32, D34, D92, D32.
        by rewrite (IH' r' ltac:(simpl in *; lia)).
      + by apply (parse_unicode_escape c (d :: r') rest _). }
  destruct (is_trail_surrogate c) eqn:Etrail.
  { apply (parse_unicode_escape c r rest _); [|done].
    pose proof (surrogate_range c (or_intror Etrail)). lia. }
  exact Hraw.
Qed.

Lemma parse_QuoteJSONString (s rest : jsstring) :
  exists text,
    QuoteJSONString s ++ rest = 34%N :: text
    /\ parse_string_chars text = Ok (s, rest).
Proof.
  exists (quote_chars s ++ 34%N :: rest). split; [|apply parse_quote_chars].
  unfold QuoteJSONString. simpl. by rewrite <- app_assoc.
Qed.

Lemma parse_digits_end (acc : Z) (rest : jsstring) :
  number_end rest -> parse_digits acc rest = (acc, rest).
Proof. destruct rest as [|c r]; [done|]. by intros [-> | [-> | ->]]. Qed.

Lemma js_String (a : Ascii.ascii) (s : string) :
  js (String a s) = N_of_ascii a :: js s.
Proof. reflexivity. Qed.

Lemma parse_digits_digit (acc : Z) (c : N) (r : jsstring) :
  is_digit c = true ->
  parse_digits acc (c :: r) = parse_digits (10 * acc + (Z.of_N c - 48)) r.
Proof. intros H. simpl. by rewrite H. Qed.

Lemma parse_digits_uint (d : Decimal.uint) (acc : positive) (rest : jsstring) :
  number_end rest ->
  parse_digits (Z.pos acc) (js (NilEmpty.string_of_uint d) ++ rest)
  = (Z.pos (Pos.of_uint_acc d acc), rest).
Proof.
  intros Hrest. revert acc.
  induction d as [|d IH|d IH|d IH|d IH|d IH|d IH|d IH|d IH|d IH|d IH];
    intros acc; [by apply parse_digits_end|..];
    cbn [NilEmpty.string_of_uint Pos.of_uint_acc];
    rewrite js_String, <- app_comm_cons, parse_digits_digit by done;
    rewrite <- IH; f_equal; change (N_of_ascii _) with 48%N ||
      change (N_of_ascii _) with 49%N || change (N_of_ascii _) with 50%N ||
      change (N_of_ascii _) with 51%N || change (N_of_ascii _) with 52%N ||
      change (N_of_ascii _) with 53%N || change (N_of_ascii _) with 54%N ||
      change (N_of_ascii _) with 55%N || change (N_of_ascii _) with 56%N ||
      change (N_of_ascii _) with 57%N; lia.
Qed.

Lemma unorm_D0 (l : Decimal.uint) :
  Decimal.unorm (Decimal.D0 l) = Decimal.D0 l -> l = Decimal.Nil.
Proof.
  unfold Decimal.unorm. simpl. pose proof (DecimalFacts.nb_digits_nzhead l) as Hlen.
  destruct (Decimal.nzhead l); intros [= <-]; first [done | simpl in Hlen; lia].
Qed.

Lemma to_uint_head (p : positive) :
  match Pos.to_uint p with
  | Decimal.Nil | Decimal.D0 _ => False
  | _ => True
  end.
Proof.
  pose proof (DecimalPos.Unsigned.to_of (Pos.to_uint p)) as Hnorm.
  rewrite DecimalPos.Unsigned.of_to in Hnorm. simpl in Hnorm.
  pose proof (DecimalPos.Unsigned.to_uint_nonnil p) as Hnil.
  pose proof (DecimalPos.Unsigned.to_uint_nonzero p) as Hzero.
  destruct (Pos.to_uint p) as [|l|?|?|?|?|?|?|?|?|?]; try done.
  symmetry in Hnorm. apply unorm_D0 in Hnorm as ->. done.
Qed.

Lemma parse_digits_to_uint (p : positive) (rest : jsstring) :
  number_end rest ->
  exists c r,
    js (NilZero.string_of_uint (Pos.to_uint p)) ++ rest = c :: r
    /\ (c =? 45)%N = false /\ (c =? 48)%N = false /\ is_digit c = true
    /\ (c =? 34)%N = false /\ (c =? 91)%N = false /\ (c =? 123)%N = false
    /\ is_json_ws c = false
    /\ parse_digits 0 (c :: r) = (Z.pos p, rest).
Proof.
  intros Hrest. pose proof (to_uint_head p) as Hhead.
  pose proof (DecimalPos.Unsigned.of_to p) as Hval.
  destruct (Pos.to_uint p) as [|l|l|l|l|l|l|l|l|l|l] eqn:E; try done;
    simpl in Hval; injection Hval as Hval;
    eexists _, _; (split; [reflexivity|]); split_and!; try reflexivity;
    rewrite parse_digits_digit by done; rewrite <- Hval;
    by rewrite <- parse_digits_uint.
Qed.

Lemma parse_value_number_head (fuel : nat) (c : N) (r : jsstring) :
  is_json_ws c = false -> (c =? 34)%N = false -> (c =? 91)%N = false ->
  (c =? 123)%N = false -> ((c =? 45)%N || is_digit c) = true ->
  parse_value (S fuel) (c :: r) = parse_number (c :: r).
Proof.
  intros Hws H34 H91 H123 Hnum. cbn [parse_value skip_ws].
  by rewrite Hws, H34, H91, H123, Hnum.
Qed.

Lemma parse_number_digits (neg : bool) (c : N) (r rest : jsstring) (n : Z) :
  (c =? 45)%N = false -> (c =? 48)%N = false -> is_digit c = true ->
  parse_digits 0 (c :: r) = (n, rest) ->
  parse_number (if neg then 45%N :: c :: r else c :: r)
  = finish_number neg n rest.
Proof.
  intros H45 H48 Hdigit Hdigits. unfold parse_number.
  destruct neg.
  - change (45 =? 45)%N with true. cbv iota beta. by rewrite H48, Hdigit, Hdigits.
  - rewrite H45. cbv iota beta. by rewrite H48, Hdigit, Hdigits.
Qed.

Lemma finish_number_end (neg : bool) (n : Z) (rest : jsstring) :
  number_end rest -> 0 <= n <= MAX_SAFE_INTEGER -> (neg = true -> n <> 0) ->
  finish_number neg n rest = Ok (JNum (if neg then - n else n), rest).
Proof.
  intros Hrest Hn Hneg. unfold finish_number.
  assert (match rest with
          | c :: _ => ((c =? 46) || (c =? 101) || (c =? 69))%N
          | [] => false
          end = false) as ->.
  { destruct rest as [|c r]; [done|]. by destruct Hrest as [-> | [-> | ->]]. }
  destruct neg; simpl.
  - destruct (Z.eqb_spec n 0); [by destruct Hneg|].
    destruct (Z.ltb_spec MAX_SAFE_INTEGER n); [lia|done].
  - destruct (Z.ltb_spec MAX_SAFE_INTEGER n); [lia|done].
Qed.

(** A number that [JSON.stringify] wrote is read back, when it is in the
    range the reader covers. *)
Lemma parse_value_number (fuel : nat) (n : Z) (rest : jsstring) :
  - MAX_SAFE_INTEGER <= n <= MAX_SAFE_INTEGER -> number_end rest ->
  parse_value (S fuel) (number_to_string n ++ rest) = Ok (JNum n, rest).
Proof.
  intros Hn Hrest.
  unfold number_to_string. destruct n as [|p|p]; simpl Z.to_int.
  - change (js _ ++ rest) with (48%N :: rest).
    rewrite parse_value_number_head by done.
    change (parse_number (48%N :: rest)) with (finish_number false 0 rest).
    rewrite finish_number_end; [done|done|unfold MAX_SAFE_INTEGER in *; lia|done].
  - destruct (parse_digits_to_uint p rest Hrest)
      as (c & r & Htext & E45 & E48 & Edigit & E34 & E91 & E123 & Ews & Hdigits).
    cbn [NilZero.string_of_int]. rewrite Htext.
    rewrite parse_value_number_head by (by rewrite ?Edigit, ?orb_true_r).
    rewrite (parse_number_digits false c r rest (Z.pos p)) by done.
    rewrite finish_number_end; [done|done|unfold MAX_SAFE_INTEGER in *; lia|done].
  - destruct (parse_digits_to_uint p rest Hrest)
      as (c & r & Htext & E45 & E48 & Edigit & E34 & E91 & E123 & Ews & Hdigits).
    cbn [NilZero.string_of_int]. rewrite js_String, <- app_comm_cons, Htext.
    change (N_of_ascii _) with 45%N.
    rewrite parse_value_number_head by done.
    rewrite (parse_number_digits true c r rest (Z.pos p)) by done.
    rewrite finish_number_end; [done|done|unfold MAX_SAFE_INTEGER in *; lia|done].
Qed.

Lemma parse_value_string (fuel : nat) (s rest : jsstring) :
  parse_value (S fuel) (QuoteJSONString s ++ rest) = Ok (JStr s, rest).
Proof.
  destruct (parse_QuoteJSONString s rest) as (text & -> & Htext).
  cbn [parse_value skip_ws]. change (is_json_ws 34) with false.
  change (34 =? 34)%N with true. cbv iota. by rewrite Htext.
Qed.

Lemma parse_value_scalar (fuel : nat) (j : json) (rest : jsstring) :
  scalar_ok j -> number_end rest ->
  parse_value (S fuel) (JSON_stringify j ++ rest) = Ok (j, rest).
Proof.
  intros Hj Hrest. destruct j as [|[]|n|s|l|l]; try done.
  - by apply parse_value_number.
  - apply parse_value_string.
Qed.

Lemma parse_member (fuel : nat) (k : jsstring) (v : json) (rest : jsstring) :
  scalar_ok v -> number_end rest ->
  exists text,
    (QuoteJSONString k ++ [58%N] ++ JSON_stringify v) ++ rest = 34%N :: text
    /\ parse_string_chars text = Ok (k, 58%N :: JSON_stringify v ++ rest)
    /\ parse_value (S fuel) (JSON_stringify v ++ rest) = Ok (v, rest).
Proof.
  intros Hv Hrest.
  destruct (parse_QuoteJSONString k (58%N :: JSON_stringify v ++ rest))
    as (text & Htext & Hparse).
  exists text. split_and!; [|done|by apply parse_value_scalar].
  rewrite <- Htext. by rewrite <- !app_assoc.
Qed.

Lemma expect_here (c : N) (r : jsstring) :
  is_json_ws c = false -> expect c (c :: r) = Some r.
Proof. intros H. unfold expect. simpl. by rewrite H, N.eqb_refl. Qed.

Lemma expect_other (c d : N) (r : jsstring) :
  is_json_ws d = false -> c <> d -> expect c (d :: r) = None.
Proof.
  intros H Hne. unfold expect. simpl. rewrite H.
  by apply N.eqb_neq in Hne as ->.
Qed.

(** One member: the key, the colon, the value and what follows. *)
Lemma parse_members_step (fuel : nat) (k : jsstring) (v : json)
    (rest : jsstring) :
  scalar_ok v -> number_end rest ->
  parse_members (S (S fuel))
    ((QuoteJSONString k ++ [58%N] ++ JSON_stringify v) ++ rest)
  = match expect 44 rest with
    | Some r4 =>
        '(ms, rest') ← parse_members (S fuel) r4; Ok ((k, v) :: ms, rest')
    | None =>
        match expect 125 rest with
        | Some rest' => Ok ([(k, v)], rest')
        | None => Raise SyntaxError
        end
    end.
Proof.
  intros Hv Hrest.
  destruct (parse_member fuel k v rest Hv Hrest)
    as (text & -> & Hkey & Hvalue).
  cbn [parse_members]. rewrite expect_here by done. rewrite Hkey.
  cbn [mbind outcome_bind]. rewrite expect_here by done. by rewrite Hvalue.
Qed.

Lemma parse_members_text (fuel : nat) (ms : list (jsstring * json))
    (rest : jsstring) :
  ms <> [] -> Forall (fun m => scalar_ok m.2) ms ->
  (length ms < fuel)%nat ->
  parse_members fuel (members_text ms ++ 125%N :: rest) = Ok (ms, rest).
Proof.
  revert fuel. induction ms as [|[k v] ms IH]; intros fuel Hne Hok Hfuel;
    [done|].
  apply Forall_cons in Hok as [Hv Hok]. simpl in Hv, Hfuel.
  destruct fuel as [|[|fuel]]; [lia|lia|].
  destruct ms as [|m ms].
  - unfold members_text. cbn [map join_comma fst snd].
    rewrite parse_members_step; [|done|by right; right].
    rewrite expect_other, expect_here by done. done.
  - assert (members_text ((k, v) :: m :: ms) ++ 125%N :: rest
            = (QuoteJSONString k ++ [58%N] ++ JSON_stringify v)
              ++ 44%N :: members_text (m :: ms) ++ 125%N :: rest) as ->.
    { unfold members_text. cbn [map join_comma fst snd].
      by rewrite <- !app_assoc. }
    rewrite parse_members_step; [|done|by left].
    rewrite expect_here by done.
    rewrite IH; [done|done|done|simpl in *; lia].
Qed.

(** An object of scalars that [JSON.stringify] wrote is read back. *)
Lemma members_text_head (ms : list (jsstring * json)) (rest : jsstring) :
  ms <> [] ->
  exists text, members_text ms ++ rest = 34%N :: text.
Proof.
  destruct ms as [|[k v] ms]; [done|]. intros _.
  unfold members_text, QuoteJSONString. destruct ms; cbn; eauto.
Qed.

Lemma parse_value_object (fuel : nat) (ms : list (jsstring * json))
    (rest : jsstring) :
  ms <> [] -> Forall (fun m => scalar_ok m.2) ms ->
  (length ms < fuel)%nat ->
  parse_value (S fuel) (JSON_stringify (JObj ms) ++ rest) = Ok (JObj ms, rest).
Proof.
  intros Hne Hok Hfuel.
  assert (JSON_stringify (JObj ms) ++ rest
          = 123%N :: members_text ms ++ 125%N :: rest) as ->.
  { cbn [JSON_stringify]. fold (members_text ms).
    by rewrite <- !app_assoc. }
  pose proof (parse_members_text fuel ms rest Hne Hok Hfuel) as Hms.
  destruct (members_text_head ms (125%N :: rest) Hne) as [text Htext].
  cbn [parse_value skip_ws]. change (is_json_ws 123) with false.
  change (123 =? 34)%N with false. change (123 =? 91)%N with false.
  change (123 =? 123)%N with true. cbv iota.
  rewrite Htext in *. rewrite expect_other by done. by rewrite Hms.
Qed.

Lemma member_ok (key : string) (v : value) :
  storable_value v -> Forall (fun m => scalar_ok m.2) (member key v).
Proof.
  destruct v; intros H; simpl; [constructor|..];
    (constructor; [exact H || exact I|constructor]).
Qed.

Lemma taskMembers_ok (task : Task) :
  storable task ->
  taskMembers task <> []
  /\ Forall (fun m => scalar_ok m.2) (taskMembers task)
  /\ (length (taskMembers task) <= 7)%nat.
Proof.
  intros (Hid & _ & Hd & _ & Hp & Hc). unfold taskMembers. split_and!.
  - done.
  - repeat (apply Forall_app; split); try by apply member_ok.
    + repeat constructor; simpl; lia.
    + repeat constructor.
  - destruct (Task.date task), (Task.priority task), (Task.completedAt task);
      simpl; lia.
Qed.

Lemma decodeTask_taskToJSON (task : Task) :
  storable task -> decodeTask (taskToJSON task) = Some task.
Proof.
  intros (_ & Hd & _ & Hp & _ & _). destruct task as [i tx c d p ca x].
  simpl in Hd, Hp. destruct d, p; try done; destruct x;
    unfold taskToJSON, taskMembers, member;
    cbn [app Task.id Task.text Task.completed Task.date Task.priority
           Task.createdAt Task.completedAt];
    unfold decodeTask; rewrite bool_decide_eq_true_2 by reflexivity;
    reflexivity.
Qed.

Lemma decodeTasks_taskToJSON (l : list Task) :
  Forall storable l -> decodeTasks (JArr (taskToJSON <$> l)) = Some l.
Proof.
  intros Hl. simpl. apply mapM_Some. induction Hl as [|t l Ht Hl IH]; simpl.
  - constructor.
  - constructor; [by apply decodeTask_taskToJSON|done].
Qed.

Lemma parse_value_task (fuel : nat) (task : Task) (rest : jsstring) :
  storable task -> (8 <= fuel)%nat ->
  parse_value (S fuel) (JSON_stringify (taskToJSON task) ++ rest)
  = Ok (taskToJSON task, rest).
Proof.
  intros (Hne & Hok & Hlen)%taskMembers_ok Hfuel.
  apply parse_value_object; [done|done|lia].
Qed.

Lemma task_text_head (task : Task) (rest : jsstring) :
  exists text,
    JSON_stringify (taskToJSON task) ++ rest = 123%N :: 34%N :: 105%N :: text.
Proof.
  eexists. unfold taskToJSON, taskMembers, QuoteJSONString.
  cbn [JSON_stringify map app fst snd join_comma].
  change (quote_chars (js "id")) with [105%N; 100%N]. reflexivity.
Qed.

Lemma parse_elements_step (fuel : nat) (s : jsstring) :
  parse_elements (S fuel) s
  = '(v, r) ← parse_value fuel s;
    match expect 44 r with
    | Some r1 => '(vs, rest) ← parse_elements fuel r1; Ok (v :: vs, rest)
    | None =>
        match expect 93 r with
        | Some rest => Ok ([v], rest)
        | None => Raise SyntaxError
        end
    end.
Proof. reflexivity. Qed.

(** The elements of the array, after its bracket. *)
Lemma parse_elements_tasks (fuel : nat) (l : list Task) (rest : jsstring) :
  l <> [] -> Forall storable l -> (length l + 9 <= fuel)%nat ->
  parse_elements fuel
    (join_comma (map JSON_stringify (taskToJSON <$> l)) ++ 93%N :: rest)
  = Ok (taskToJSON <$> l, rest).
Proof.
  revert fuel. induction l as [|t l IH]; intros fuel Hne Hl Hfuel; [done|].
  apply Forall_cons in Hl as [Ht Hl]. simpl in Hfuel.
  destruct fuel as [|[|fuel]]; [lia|lia|].
  destruct l as [|t' l].
  - cbn [fmap list_fmap map join_comma]. rewrite parse_elements_step.
    rewrite parse_value_task by (done || lia).
    cbn [mbind outcome_bind]. by rewrite expect_other, expect_here.
  - assert (join_comma (map JSON_stringify (taskToJSON <$> t :: t' :: l))
              ++ 93%N :: rest
            = JSON_stringify (taskToJSON t)
              ++ 44%N :: join_comma (map JSON_stringify (taskToJSON <$> t' :: l))
              ++ 93%N :: rest) as ->.
    { cbn [fmap list_fmap map join_comma]. by rewrite <- !app_assoc. }
    rewrite parse_elements_step. rewrite parse_value_task by (done || lia).
    cbn [mbind outcome_bind]. rewrite expect_here by done.
    rewrite IH; [done|done|done|simpl in *; lia].
Qed.

Lemma join_comma_length (texts : list jsstring) :
  Forall (fun text => (3 <= length text)%nat) texts ->
  (3 * length texts <= length (join_comma texts))%nat.
Proof.
  induction 1 as [|x l Hx Hl IH]; [done|]. simpl.
  destruct l; [simpl; lia|]. rewrite !length_app. simpl in *. lia.
Qed.

Lemma task_text_length (task : Task) :
  (3 <= length (JSON_stringify (taskToJSON task)))%nat.
Proof.
  destruct (task_text_head task []) as [text Htext].
  rewrite List.app_nil_r in Htext. rewrite Htext. simpl. lia.
Qed.

Lemma join_comma_head (x : jsstring) (l : list jsstring) (r : jsstring) :
  exists tail, join_comma (x :: l) ++ r = x ++ tail.
Proof.
  destruct l as [|y l]; [by exists r|].
  exists (44%N :: join_comma (y :: l) ++ r).
  cbn [join_comma]. by rewrite <- !app_assoc.
Qed.

Lemma parse_value_array (fuel : nat) (text : jsstring) :
  parse_value (S fuel) (91%N :: 123%N :: text)
  = '(l, rest) ← parse_elements fuel (123%N :: text); Ok (JArr l, rest).
Proof. reflexivity. Qed.

(** What [saveTasks] writes, [JSON.parse] reads back as the array of the
    task objects. *)
Lemma JSON_parse_serialize (l : list Task) :
  Forall storable l -> JSON_parse (serialize l) = Ok (JArr (taskToJSON <$> l)).
Proof.
  intros Hl. unfold JSON_parse, serialize.
  destruct l as [|t l]; [reflexivity|].
  set (elements := join_comma (map JSON_stringify (taskToJSON <$> t :: l))).
  assert (JSON_stringify (JArr (taskToJSON <$> t :: l))
          = 91%N :: elements ++ [93%N]) as Hshape by reflexivity.
  rewrite Hshape. clear Hshape.
  assert (3 * length (t :: l) <= length elements)%nat as Hlen.
  { unfold elements. etransitivity; [|apply join_comma_length].
    - by rewrite length_map, length_fmap.
    - rewrite Forall_map, Forall_fmap. apply Forall_true.
      intros x. apply task_text_length. }
  assert (exists text, elements ++ [93%N] = 123%N :: text) as [text Htext].
  { unfold elements. rewrite fmap_cons. cbn [map].
    destruct (join_comma_head (JSON_stringify (taskToJSON t))
                (map JSON_stringify (taskToJSON <$> l)) [93%N])
      as [tail ->].
    destruct (task_text_head t tail) as [text ->]. eauto. }
  assert (exists fuel,
             (2 * length (91%N :: elements ++ [93%N]) + 2 = S fuel
              /\ length (t :: l) + 9 <= fuel)%nat) as (fuel & -> & Hfuel).
  { exists (2 * length (91%N :: elements ++ [93%N]) + 1)%nat.
    split; [lia|]. rewrite (length_cons 91%N), length_app.
    change (length [93%N]) with 1%nat. rewrite length_cons in *. lia. }
  rewrite Htext, parse_value_array, <- Htext. subst elements.
  rewrite (parse_elements_tasks fuel (t :: l) []) by done. reflexivity.
Qed.

(** ** Reloading the page *)

(** X1. What [saveTasks] writes is read back by [JSON.parse] as the array of
    the task objects, and these are the tasks, in their order. *)
Theorem serialize_roundtrip (l : list Task) :
  Forall storable l ->
  JSON_parse (serialize l) = Ok (JArr (taskToJSON <$> l))
  /\ decodeTasks (JArr (taskToJSON <$> l)) = Some l.
Proof.
  intros Hl. split; [by apply JSON_parse_serialize|by apply decodeTasks_taskToJSON].
Qed.

Lemma storable_two_tasks : Forall storable (tasks two_tasks).
Proof.
  vm_compute tasks. repeat constructor; simpl; try done;
    unfold MAX_SAFE_INTEGER; lia.
Qed.

Lemma serialize_roundtrip_witness :
  decodeTasks (JArr (taskToJSON <$> tasks two_tasks)) = Some (tasks two_tasks).
Proof. exact (proj2 (serialize_roundtrip (tasks two_tasks) storable_two_tasks)). Defined.

Lemma serialize_nonempty (l : list Task) : serialize l <> [].
Proof. done. Qed.

Lemma new_TaskManager_saveTasks (this : TaskManager) :
  Forall storable (tasks this) ->
  new_TaskManager (localStorage (saveTasks this)) = Ok (reloaded (saveTasks this)).
Proof.
  intros Hl. unfold new_TaskManager, loadTasks. simpl.
  rewrite lookup_insert_eq.
  destruct (serialize (tasks this)) as [|c text] eqn:Htext; [done|].
  rewrite <- Htext, JSON_parse_serialize by done.
  cbn [mbind outcome_bind]. by rewrite decodeTasks_taskToJSON.
Qed.

Lemma run_snoc (ops : list op) (o : op) (this : TaskManager) :
  run (ops ++ [o]) this = step o (run ops this).
Proof. by rewrite run_app. Qed.

Lemma new_TaskManager_reloaded storage this :
  new_TaskManager storage = Ok this -> new_TaskManager (localStorage this) = Ok (reloaded this).
Proof.
  intros Hnew. destruct (new_TaskManager_inv _ _ Hnew) as [Hnext ->].
  rewrite Hnew. f_equal. destruct this. simpl in *. by subst.
Qed.

(** X2. At every point of a session, constructing the store again from
    what [localStorage] holds gives the tasks of the session in their
    order, with the counter computed anew from them: at most the counter of
    the session when there is a task, 1 when there is none. *)
Theorem session_reload (storage : gmap string jsstring)
    (this0 : TaskManager) (ops : list op) :
  new_TaskManager storage = Ok this0 ->
  Forall storable (tasks (run ops this0)) ->
  let this := run ops this0 in
  new_TaskManager (localStorage this) = Ok (reloaded this)
  /\ tasks (reloaded this) = tasks this
  /\ (tasks this <> [] -> nextId (reloaded this) <= nextId this)
  /\ (tasks this = [] -> nextId (reloaded this) = 1).
Proof.
  intros Hnew Hstorable. simpl. split_and!.
  - revert Hstorable. induction ops as [|o ops IH] using rev_ind; intros Hs.
    + by eapply new_TaskManager_reloaded.
    + rewrite run_snoc in *.
      destruct (step_saved o (run ops this0)) as [Hsame | [this' Hsaved]].
      * rewrite Hsame in *. by apply IH.
      * rewrite Hsaved in *. by apply new_TaskManager_saveTasks.
  - done.
  - intros Hne.
    assert (reachable (run ops this0)) as Hreach by by exists storage, this0, ops.
    apply reachable_counter in Hreach as [_ Hb].
    pose proof (getNextId_max (tasks (run ops this0))) as Hmax.
    unfold reloaded, ids_upto in *. cbn [nextId tasks].
    destruct (tasks (run ops this0)) as [|t l]; [done|].
    destruct Hmax as (task & Hin & ->).
    rewrite Forall_forall in Hb, Hstorable.
    destruct (Hstorable task Hin) as [Hid _]. unfold MAX_SAFE_INTEGER in Hid.
    destruct (Hb task Hin) as [Hlt|[Hlast _]]; simpl in *; lia.
  - intros Hnil. unfold reloaded. cbn [nextId tasks]. by rewrite Hnil.
Qed.

Lemma session_reload_witness :
  new_TaskManager (localStorage (run scenario first_visit))
  = Ok (reloaded (run scenario first_visit)).
Proof.
  exact (proj1 (session_reload ∅ first_visit scenario eq_refl storable_two_tasks)).
Defined.

Lemma deleteTask_inv (id : value) (this : TaskManager) (deleted : Task)
    (this' : TaskManager) :
  deleteTask id this = (Some deleted, this') ->
  exists index,
    list_find (fun task => VNum (Task.id task) = id) (tasks this)
    = Some (index, deleted)
    /\ this' = saveTasks {| tasks := delete index (tasks this);
                            nextId := nextId this;
                            localStorage := localStorage this |}.
Proof.
  unfold deleteTask. destruct (list_find _ _) as [[i t]|]; [|done].
  intros [= <- <-]. eauto.
Qed.

Lemma delete_unique_id (l : list Task) (index : nat) (task : Task) :
  NoDup (Task.id <$> l) -> l !! index = Some task ->
  Forall (fun t => Task.id t <> Task.id task) (delete index l).
Proof.
  intros Hnd Hi. apply Forall_lookup. intros j t Hj Heq.
  assert (exists j', j' <> index /\ l !! j' = Some t) as (j' & Hne & Hj').
  { destruct (decide (j < index)%nat).
    - exists j. split; [lia|]. by rewrite list_lookup_delete_lt in Hj.
    - exists (S j). split; [lia|]. by rewrite list_lookup_delete_ge in Hj by lia. }
  apply Hne. apply (NoDup_lookup _ _ _ (Task.id task) Hnd).
  - rewrite list_lookup_fmap, Hj'. simpl. by rewrite Heq.
  - by rewrite list_lookup_fmap, Hi.
Qed.

(** X3. The counter is not stored.  When the task that got the last id is
    deleted and the page is loaded again, [addTask] gives an id that is at
    most the id of the deleted task: an id is given a second time, which
    within one session never happens. *)
Theorem reload_reuses_id (this : TaskManager) (deleted : Task)
    (this1 : TaskManager) (text : jsstring) (date priority : value)
    (now : jsstring) :
  ids_below this -> NoDup (Task.id <$> tasks this) ->
  Forall storable (tasks this) ->
  deleteTask (VNum (Task.id deleted)) this = (Some deleted, this1) ->
  Task.id deleted = nextId this - 1 -> 1 <= Task.id deleted ->
  trim text <> [] ->
  exists this2 task this3,
    new_TaskManager (localStorage this1) = Ok this2
    /\ addTask text date priority now this2 = (Return task, this3)
    /\ Task.id task <= Task.id deleted.
Proof.
  intros Hbelow Hnd Hstorable Hdel Hlast Hpos Htext.
  apply deleteTask_inv in Hdel as (index & Hfind & ->).
  apply list_find_Some in Hfind as (Hi & _ & _).
  set (rest := delete index (tasks this)).
  assert (Forall storable rest) as Hrest by by apply Forall_delete.
  eexists. rewrite new_TaskManager_saveTasks by done.
  unfold addTask. destruct (trim text) as [|c r] eqn:E; [done|].
  eexists _, _. split_and!; [done|done|]. simpl. fold rest.
  pose proof (getNextId_max rest) as Hmax.
  destruct rest as [|t l] eqn:Erest; [unfold getNextId; simpl; lia|].
  destruct Hmax as (task & Hin & ->).
  assert (Task.id task < nextId this) as Hlt.
  { unfold ids_below in Hbelow. rewrite Forall_forall in Hbelow.
    apply Hbelow. apply (list_elem_of_delete_inv _ index). fold rest.
    by rewrite Erest. }
  pose proof (delete_unique_id _ _ _ Hnd Hi) as Hne. fold rest in Hne.
  rewrite Erest, Forall_forall in Hne. specialize (Hne task Hin).
  simpl in Hne. lia.
Qed.

Lemma reload_reuses_id_witness :
  exists this2 task this3,
    new_TaskManager (localStorage (deleteTask (VNum 2) two_tasks).2) = Ok this2
    /\ addTask (js "Call Ana") VUndefined VUndefined tuesday this2
       = (Return task, this3)
    /\ Task.id task
       <= Task.id {| Task.id := 2; Task.text := js "Ship release";
                     Task.completed := false; Task.date := VStr (js "2024-01-01");
                     Task.priority := VStr (js "high"); Task.createdAt := monday;
                     Task.completedAt := VUndefined |}.
Proof.
  refine (reload_reuses_id two_tasks _ _ (js "Call Ana") VUndefined VUndefined
            tuesday _ _ storable_two_tasks _ _ _ _).
  - apply ids_upto_below; [apply reachable_counter, reachable_run|].
    left. by vm_compute.
  - apply (run_NoDup scenario first_visit);
      [by vm_compute|constructor|by vm_compute|constructor].
  - vm_compute. reflexivity.
  - reflexivity.
  - simpl. lia.
  - vm_compute. discriminate.
Defined.

(** ** The order of the tasks *)

Lemma StronglySorted_sublist {A} (R : relation A) (l1 l2 : list A) :
  l1 `sublist_of` l2 -> StronglySorted R l2 -> StronglySorted R l1.
Proof.
  induction 1 as [|x l1 l2 Hsub IH|x l1 l2 Hsub IH]; intros Hs.
  - constructor.
  - apply StronglySorted_cons in Hs as [Hx Hs].
    apply StronglySorted_cons. split; [|by apply IH].
    rewrite Forall_forall in *. intros y Hy. apply Hx.
    eapply elem_of_sublist; eauto.
  - apply StronglySorted_cons in Hs as [_ Hs]. by apply IH.
Qed.

Lemma step_sorted (o : op) (this : TaskManager) :
  ids_below this ->
  StronglySorted Z.lt (Task.id <$> tasks this) ->
  StronglySorted Z.lt (Task.id <$> tasks (step o this)).
Proof.
  intros Hbelow Hs.
  destruct o as [text date priority now|id now|id|]; simpl.
  - unfold addTask. destruct (trim text); simpl; [done|].
    rewrite fmap_app. apply StronglySorted_app. split_and!.
    + intros x y (t & -> & Hin)%list_elem_of_fmap Hy%list_elem_of_singleton.
      subst y. unfold ids_below in Hbelow. rewrite Forall_forall in Hbelow.
      by apply Hbelow.
    + done.
    + repeat constructor.
  - find_cases i t Hfind; [|done].
    apply list_find_Some in Hfind as (Hi & _ & _).
    by rewrite ids_insert_toggle.
  - find_cases i t Hfind; [|done].
    eapply StronglySorted_sublist; [|exact Hs]. apply fmap_sublist, sublist_delete.
  - eapply StronglySorted_sublist; [|exact Hs]. apply fmap_sublist, sublist_filter.
Qed.

Lemma step_sorted_le (o : op) (this : TaskManager) :
  ids_upto this ->
  StronglySorted Z.le (Task.id <$> tasks this) ->
  StronglySorted Z.le (Task.id <$> tasks (step o this)).
Proof.
  intros Hupto Hs.
  destruct o as [text date priority now|id now|id|]; simpl.
  - unfold addTask. destruct (trim text); simpl; [done|].
    rewrite fmap_app. apply StronglySorted_app. split_and!.
    + intros x y (t & -> & Hin)%list_elem_of_fmap Hy%list_elem_of_singleton.
      subst y. unfold ids_upto in Hupto. rewrite Forall_forall in Hupto.
      destruct (Hupto t Hin) as [Hlt|[Hid Hn]]; simpl in *; lia.
    + done.
    + repeat constructor.
  - find_cases i t Hfind; [|done].
    apply list_find_Some in Hfind as (Hi & _ & _).
    by rewrite ids_insert_toggle.
  - find_cases i t Hfind; [|done].
    eapply StronglySorted_sublist; [|exact Hs]. apply fmap_sublist, sublist_delete.
  - eapply StronglySorted_sublist; [|exact Hs]. apply fmap_sublist, sublist_filter.
Qed.

(** X4. In a session that starts from tasks sorted by id, the tasks stay
    sorted by id: the order of the store is the order in which the ids
    were given.  While the counter is below [2^53] they are sorted
    strictly, and no two tasks have the same id. *)
Theorem session_sorted (storage : gmap string jsstring)
    (this0 : TaskManager) (ops : list op) :
  new_TaskManager storage = Ok this0 ->
  StronglySorted Z.lt (Task.id <$> tasks this0) ->
  StronglySorted Z.le (Task.id <$> tasks (run ops this0))
  /\ (nextId (run ops this0) < 2 ^ 53 ->
      StronglySorted Z.lt (Task.id <$> tasks (run ops this0))
      /\ NoDup (Task.id <$> tasks (run ops this0))).
Proof.
  intros Hnew Hs.
  pose proof (ids_below_new _ _ Hnew) as Hbelow.
  pose proof (counter_range_new _ _ Hnew) as Hrange.
  split.
  - assert (StronglySorted Z.le (Task.id <$> tasks this0)) as Hle.
    { clear -Hs. induction Hs as [|x l Hs' IH Hx]; constructor; [done|].
      eapply Forall_impl; [exact Hx|]. intros y Hy. simpl in Hy. lia. }
    pose proof (ids_below_upto _ Hbelow) as Hupto. clear Hnew Hs Hbelow.
    revert this0 Hrange Hupto Hle.
    induction ops as [|o ops IH]; intros this0 Hrange Hupto Hle; [done|].
    simpl. destruct (step_counter o this0) as [_ Hstep].
    destruct (Hstep Hrange) as [Hrange' Hupto'].
    apply IH; [done|by apply Hupto'|by apply step_sorted_le].
  - intros Hlast.
    assert (StronglySorted Z.lt (Task.id <$> tasks (run ops this0)))
      as Hsorted.
    { apply (run_below
               (fun this => StronglySorted Z.lt (Task.id <$> tasks this)));
        try done.
      intros o this. apply step_sorted. }
    split; [done|].
    induction Hsorted as [|x l Hs' IH Hx]; constructor; [|done].
    intros Hin. rewrite Forall_forall in Hx. specialize (Hx x Hin). lia.
Qed.

Lemma session_sorted_witness :
  StronglySorted Z.lt (Task.id <$> tasks (run scenario first_visit)).
Proof.
  refine (proj1 (proj2 (session_sorted ∅ first_visit scenario eq_refl _) _)).
  - constructor.
  - by vm_compute.
Defined.

(** ** Completed and pending tasks *)

(** X5. The completed and the pending tasks divide the tasks of the store:
    every task is in exactly one of the two lists, both keep the order of
    the store, and their lengths add up to the number of tasks. *)
Theorem completed_pending_partition (this : TaskManager) :
  getCompletedTasks this ++ getPendingTasks this ≡ₚ getAllTasks this
  /\ getCompletedTasks this `sublist_of` getAllTasks this
  /\ getPendingTasks this `sublist_of` getAllTasks this
  /\ (length (getCompletedTasks this) + length (getPendingTasks this)
      = length (getAllTasks this))%nat
  /\ (forall task,
        task ∈ getAllTasks this ->
        (task ∈ getCompletedTasks this /\ (task ∉ getPendingTasks this)
         /\ Task.completed task = true)
        \/ (task ∈ getPendingTasks this /\ (task ∉ getCompletedTasks this)
            /\ Task.completed task = false)).
Proof.
  unfold getCompletedTasks, getPendingTasks, getAllTasks. split_and!.
  - apply (filter_app_complement (fun task => Task.completed task = true)).
  - apply sublist_filter.
  - apply sublist_filter.
  - apply length_filter_completed.
  - intros task Hin. rewrite !list_elem_of_filter.
    destruct (Task.completed task) eqn:E; [left|right]; intuition congruence.
Qed.

Lemma completed_pending_partition_witness :
  exists task,
    task ∈ getCompletedTasks two_tasks /\ (task ∉ getPendingTasks two_tasks)
    /\ Task.completed task = true.
Proof.
  destruct (proj2 (proj2 (proj2 (proj2
              (completed_pending_partition two_tasks))))
              {| Task.id := 1; Task.text := js "Buy milk";
                 Task.completed := true; Task.date := VNull;
                 Task.priority := VStr (js "medium");
                 Task.createdAt := monday;
                 Task.completedAt := VStr tuesday |})
    as [H|(_ & _ & H)].
  - apply elem_of_cons. by left.
  - by eexists.
  - discriminate H.
Defined.

(** ** Deleting a task *)

(** X6. When [deleteTask] finds a task, it is the first task of the store
    with the id; the store loses this one task and keeps the others in
    their order, the counter stays, and when the ids are unique no task
    of the store has the id any more. *)
Theorem deleteTask_found (id : value) (this : TaskManager) (deleted : Task)
    (this' : TaskManager) :
  deleteTask id this = (Some deleted, this') ->
  exists index,
    tasks this !! index = Some deleted
    /\ VNum (Task.id deleted) = id
    /\ (forall j task, (j < index)%nat -> tasks this !! j = Some task ->
                       VNum (Task.id task) <> id)
    /\ tasks this' = take index (tasks this) ++ drop (S index) (tasks this)
    /\ (length (tasks this') + 1 = length (tasks this))%nat
    /\ nextId this' = nextId this
    /\ (NoDup (Task.id <$> tasks this) ->
        forall task, task ∈ tasks this' -> VNum (Task.id task) <> id).
Proof.
  intros (index & Hfind & ->)%deleteTask_inv.
  apply list_find_Some in Hfind as (Hi & Hid & Hfirst).
  exists index. simpl. split_and!.
  - done.
  - done.
  - intros j task Hj Hlookup. by apply (Hfirst j).
  - apply delete_take_drop.
  - pose proof (lookup_lt_Some _ _ _ Hi). rewrite length_delete by eauto. lia.
  - done.
  - intros Hnd task Hin <-.
    pose proof (delete_unique_id _ _ _ Hnd Hi) as Hne.
    rewrite Forall_forall in Hne. specialize (Hne task Hin). simpl in Hne.
    by injection Hid.
Qed.

Lemma deleteTask_found_witness :
  exists index, tasks two_tasks !! index
    = Some {| Task.id := 2; Task.text := js "Ship release";
              Task.completed := false; Task.date := VStr (js "2024-01-01");
              Task.priority := VStr (js "high"); Task.createdAt := monday;
              Task.completedAt := VUndefined |}.
Proof.
  destruct (deleteTask_found (VNum 2) two_tasks _ _ eq_refl)
    as (index & Hi & _).
  by exists index.
Defined.

(** X7. In a session, while the counter is below [2^53], [addTask] with a
    text that is not empty when trimmed returns a task, and deleting this
    task by its id gives back the collection of before the two calls; the
    counter does not go back. *)
Theorem addTask_deleteTask (this : TaskManager) (text : jsstring)
    (date priority : value) (now : jsstring) :
  reachable this -> nextId this < 2 ^ 53 -> trim text <> [] ->
  exists task this1 this2,
    addTask text date priority now this = (Return task, this1)
    /\ deleteTask (VNum (Task.id task)) this1 = (Some task, this2)
    /\ tasks this2 = tasks this
    /\ nextId this2 = nextId this + 1.
Proof.
  intros [Hrange Hupto]%reachable_counter Hlast Htrim.
  pose proof (ids_upto_below _ Hupto (or_introl Hlast)) as Hbelow.
  unfold addTask. destruct (trim text) as [|c r]; [done|].
  eexists _, _, _. split; [reflexivity|].
  unfold deleteTask. cbn [tasks saveTasks Task.id].
  set (task := {| Task.id := nextId this |}).
  assert (list_find (fun t => VNum (Task.id t) = VNum (nextId this))
            (tasks this ++ [task])
          = Some (length (tasks this), task)) as ->.
  { apply list_find_Some. split_and!.
    - by rewrite lookup_app_r, Nat.sub_diag.
    - done.
    - intros j t Hj Hlt [= Heq]. rewrite lookup_app_l in Hj by done.
      unfold ids_below in Hbelow.
      pose proof (Forall_lookup_1 _ _ _ _ Hbelow Hj) as H. simpl in H. lia. }
  split_and!; [reflexivity| |].
  - cbn [tasks saveTasks]. by rewrite delete_middle, app_nil_r.
  - cbn [nextId saveTasks]. unfold counter_range in Hrange.
    apply increment_exact. lia.
Qed.

Lemma addTask_deleteTask_witness :
  exists this2,
    deleteTask (VNum 3)
      (addTask (js "Call Ana") VUndefined VUndefined tuesday two_tasks).2
    = (Some {| Task.id := 3; Task.text := js "Call Ana"; Task.completed := false;
               Task.date := VNull; Task.priority := VStr (js "medium");
               Task.createdAt := tuesday; Task.completedAt := VUndefined |},
       this2)
    /\ tasks this2 = tasks two_tasks.
Proof.
  destruct (addTask_deleteTask two_tasks (js "Call Ana") VUndefined VUndefined
              tuesday (reachable_run scenario))
    as (task & this1 & this2 & H1 & H2 & H3 & _).
  - by vm_compute.
  - vm_compute. discriminate.
  - exists this2. split; [|exact H3].
    assert (addTask (js "Call Ana") VUndefined VUndefined tuesday two_tasks
            = (Return {| Task.id := 3; Task.text := js "Call Ana";
                         Task.completed := false; Task.date := VNull;
                         Task.priority := VStr (js "medium");
                         Task.createdAt := tuesday;
                         Task.completedAt := VUndefined |},
               (addTask (js "Call Ana") VUndefined VUndefined tuesday
                  two_tasks).2)) as Hadd by (vm_compute; reflexivity).
    rewrite Hadd in H1. injection H1 as <- <-. exact H2.
Defined.

(** ** Toggling a task *)

(** X8. When [toggleTaskCompletion] finds a task, it is the first task of
    the store with the id, also when several tasks have the id; the task
    it returns is this task toggled, it takes its place, and every other
    place, the ids and the counter stay as they were. *)
Theorem toggleTaskCompletion_first (id : value) (now : jsstring)
    (this : TaskManager) (task' : Task) (this' : TaskManager) :
  toggleTaskCompletion id now this = (Some task', this') ->
  exists index task,
    tasks this !! index = Some task
    /\ VNum (Task.id task) = id
    /\ (forall j t, (j < index)%nat -> tasks this !! j = Some t ->
                    VNum (Task.id t) <> id)
    /\ task' = toggle now task
    /\ tasks this' !! index = Some task'
    /\ (forall j, j <> index -> tasks this' !! j = tasks this !! j)
    /\ length (tasks this') = length (tasks this)
    /\ Task.id <$> tasks this' = Task.id <$> tasks this
    /\ nextId this' = nextId this.
Proof.
  unfold toggleTaskCompletion.
  destruct (list_find _ _) as [[index task]|] eqn:Hfind; [|done].
  intros [= <- <-]. apply list_find_Some in Hfind as (Hi & Hid & Hfirst).
  exists index, task. cbn [tasks nextId saveTasks]. split_and!.
  - done.
  - done.
  - intros j t Hj Hlookup. by apply (Hfirst j).
  - done.
  - apply list_lookup_insert_eq. by eapply lookup_lt_Some.
  - intros j Hj. by apply list_lookup_insert_ne.
  - apply length_insert.
  - by apply ids_insert_toggle.
  - done.
Qed.

Lemma toggleTaskCompletion_first_witness :
  exists index task,
    tasks two_tasks !! index = Some task /\ VNum (Task.id task) = VNum 2.
Proof.
  destruct (toggleTaskCompletion_first (VNum 2) tuesday two_tasks _ _ eq_refl)
    as (index & task & H1 & H2 & _).
  by exists index, task.
Defined.

(** ** Clearing the completed tasks *)

(** X9. A second [clearCompletedTasks] removes nothing and leaves the
    state, the stored item included, as the first call left it. *)
Theorem clearCompletedTasks_twice (this : TaskManager) :
  let this1 := (clearCompletedTasks this).2 in
  clearCompletedTasks this1 = ([], this1).
Proof.
  unfold clearCompletedTasks, getCompletedTasks, saveTasks.
  cbn [snd tasks nextId localStorage].
  rewrite filter_completed_pending, filter_pending_pending.
  by rewrite insert_insert_eq.
Qed.

(** ** Statistics of the states that the operations leave *)

Lemma div64_zero (t : Z) : 0 < t -> div64 (inject_Z 0) (inject_Z t) = 0%Q.
Proof.
  intros Ht. unfold div64, round64.
  assert (inject_Z 0 / inject_Z t == 0)%Q as H.
  { unfold Qdiv. apply Qmult_0_l. }
  by rewrite H.
Qed.

Lemma completionRate_none (t : Z) :
  0 < t -> Math_round (mul64 (div64 (inject_Z 0) (inject_Z t)) 100) = 0.
Proof. intros Ht. by rewrite div64_zero. Qed.

Lemma div64_one (t : Z) :
  0 < t ->
  div64 (inject_Z t) (inject_Z t) = (inject_Z (2 ^ 52) * 2 ^ (0 - 52))%Q.
Proof.
  intros Ht. destruct t as [|p|p]; [lia| |lia].
  unfold div64, round64.
  assert (inject_Z (Z.pos p) / inject_Z (Z.pos p) == 1)%Q as H.
  { field. discriminate. }
  rewrite H. change (1 ?= 0)%Q with Gt.
  unfold round64_pos.
  assert (ilog2 (inject_Z (Z.pos p) / inject_Z (Z.pos p)) = 0) as ->.
  { unfold ilog2. cbn [Qnum Qden inject_Z Qdiv Qmult Qinv].
    rewrite Z.mul_1_r, Pos.mul_1_l, Z.sub_diag.
    assert (Qle_bool (2 ^ 0) (inject_Z (Z.pos p) / inject_Z (Z.pos p)) = true)
      as ->; [|done].
    apply Qle_bool_iff. rewrite H. done. }
  change (Z.max 0 (-1022)) with 0.
  set (x := (inject_Z (Z.pos p) / inject_Z (Z.pos p))%Q) in *.
  unfold round_ties_even.
  assert (x * 2 ^ (52 - 0) == inject_Z (2 ^ 52))%Q as Hx.
  { rewrite H. reflexivity. }
  rewrite (Qfloor_comp _ _ Hx), Qfloor_Z.
  assert ((x * 2 ^ (52 - 0) - inject_Z (2 ^ 52) ?= 1 # 2)%Q = Lt) as ->.
  { rewrite Hx. reflexivity. }
  reflexivity.
Qed.

Lemma completionRate_all (t : Z) :
  0 < t -> Math_round (mul64 (div64 (inject_Z t) (inject_Z t)) 100) = 100.
Proof. intros Ht. rewrite div64_one by done. vm_compute. reflexivity. Qed.

Lemma filter_completed_all (l : list Task) :
  Forall (fun task => Task.completed task = true) l ->
  filter (fun task => Task.completed task = true) l = l.
Proof.
  induction 1 as [|t l Ht _ IH]; [done|].
  rewrite filter_cons. destruct (decide _); [|done]. by rewrite IH.
Qed.

Lemma filter_completed_none (l : list Task) :
  Forall (fun task => Task.completed task = false) l ->
  filter (fun task => Task.completed task = true) l = [].
Proof.
  induction 1 as [|t l Ht _ IH]; [done|].
  rewrite filter_cons. destruct (decide _) as [H|H]; [congruence|done].
Qed.

Lemma getStats_none (this : TaskManager) :
  filter (fun task => Task.completed task = true) (tasks this) = [] ->
  getStats this
  = {| Stats.total := Z.of_nat (length (tasks this));
       Stats.completed := 0;
       Stats.pending := Z.of_nat (length (tasks this));
       Stats.completionRate := 0 |}.
Proof.
  intros H. unfold getStats. rewrite H. cbn [List.length Z.of_nat].
  rewrite Z.sub_0_r. f_equal.
  destruct (Z.ltb_spec 0 (Z.of_nat (length (tasks this)))); [|done].
  by apply completionRate_none.
Qed.

(** X10. When every task of the store is completed and there is one, the
    completion rate is exactly 100 and no task is pending; when no task is
    completed, the rate and the number of completed tasks are 0.  The
    binary64 quotient and product lose nothing in these cases, whatever
    the number of tasks. *)
Theorem getStats_all_or_none (this : TaskManager) :
  (Forall (fun task => Task.completed task = true) (tasks this) ->
   tasks this <> [] ->
   Stats.completionRate (getStats this) = 100
   /\ Stats.completed (getStats this) = Stats.total (getStats this)
   /\ Stats.pending (getStats this) = 0)
  /\ (Forall (fun task => Task.completed task = false) (tasks this) ->
      Stats.completionRate (getStats this) = 0
      /\ Stats.completed (getStats this) = 0
      /\ Stats.pending (getStats this) = Stats.total (getStats this)).
Proof.
  split.
  - intros Hall Hne. unfold getStats. cbn [Stats.completionRate
      Stats.completed Stats.total Stats.pending].
    rewrite (filter_completed_all _ Hall).
    assert (0 < Z.of_nat (length (tasks this))) as Hpos.
    { destruct (tasks this); [done|]. simpl. lia. }
    split_and!; [|done|lia].
    destruct (Z.ltb_spec 0 (Z.of_nat (length (tasks this)))); [|lia].
    by apply completionRate_all.
  - intros Hnone. by rewrite (getStats_none _ (filter_completed_none _ Hnone)).
Qed.

Lemma getStats_all_or_none_witness :
  Stats.completionRate
    (getStats (run [ToggleTaskCompletion (VNum 2) tuesday] two_tasks)) = 100.
Proof.
  refine (proj1 (proj1 (getStats_all_or_none
            (run [ToggleTaskCompletion (VNum 2) tuesday] two_tasks)) _ _)).
  - repeat constructor.
  - discriminate.
Defined.

(** X11. After [clearCompletedTasks] the statistics count the tasks that
    were pending before the call: they are the total and the pending
    ones, no task is completed and the rate is 0. *)
Theorem getStats_clearCompletedTasks (this : TaskManager) :
  let this' := (clearCompletedTasks this).2 in
  getStats this'
  = {| Stats.total := Stats.pending (getStats this);
       Stats.completed := 0;
       Stats.pending := Stats.pending (getStats this);
       Stats.completionRate := 0 |}
  /\ Stats.total (getStats this')
     = Stats.total (getStats this)
       - Z.of_nat (length (clearCompletedTasks this).1).
Proof.
  pose proof (length_filter_completed (tasks this)) as Hsum.
  cbn zeta. rewrite getStats_none.
  - unfold clearCompletedTasks, getCompletedTasks, getStats.
    cbn [fst snd tasks saveTasks Stats.pending Stats.total].
    split; [f_equal; lia|lia].
  - unfold clearCompletedTasks. cbn [snd tasks saveTasks].
    apply filter_completed_pending.
Qed.

(** X12. A task that [addTask] returns adds one to the total and to the
    pending tasks of the statistics and leaves the completed ones. *)
Theorem getStats_addTask (this : TaskManager) (text : jsstring)
    (date priority : value) (now : jsstring) (task : Task)
    (this' : TaskManager) :
  addTask text date priority now this = (Return task, this') ->
  Stats.total (getStats this') = Stats.total (getStats this) + 1
  /\ Stats.completed (getStats this') = Stats.completed (getStats this)
  /\ Stats.pending (getStats this') = Stats.pending (getStats this) + 1.
Proof.
  unfold addTask. destruct (trim text); [done|]. intros [= <- <-].
  unfold getStats.
  cbn [tasks saveTasks Stats.total Stats.completed Stats.pending].
  rewrite filter_app, !length_app. simpl. lia.
Qed.

Lemma getStats_addTask_witness :
  Stats.total
    (getStats (addTask (js "Call Ana") VUndefined VUndefined tuesday
                 two_tasks).2)
  = Stats.total (getStats two_tasks) + 1.
Proof.
  exact (proj1 (getStats_addTask two_tasks (js "Call Ana") VUndefined
                  VUndefined tuesday _ _ eq_refl)).
Defined.

Lemma length_filter_insert {A} (P : A -> Prop) `{!forall x, Decision (P x)}
    (l : list A) (i : nat) (x y : A) :
  l !! i = Some x ->
  (length (filter P (<[i := y]> l)) + (if decide (P x) then 1 else 0)
   = length (filter P l) + (if decide (P y) then 1 else 0))%nat.
Proof.
  revert i. induction l as [|z l IH]; intros [|i] Hi; try done.
  - injection Hi as ->. simpl. rewrite !filter_cons.
    destruct (decide (P x)), (decide (P y)); simpl; lia.
  - simpl in *. rewrite !filter_cons. specialize (IH i Hi).
    destruct (decide (P z)); simpl; lia.
Qed.

(** X13. When [toggleTaskCompletion] returns a task, the total of the
    statistics stays; when the task it returns is completed, one task more
    is completed and one less is pending, and when it is pending, one task
    less is completed and one more is pending. *)
Theorem getStats_toggleTaskCompletion (id : value) (now : jsstring)
    (this : TaskManager) (task' : Task) (this' : TaskManager) :
  toggleTaskCompletion id now this = (Some task', this') ->
  let change := if Task.completed task' then 1 else -1 in
  Stats.total (getStats this') = Stats.total (getStats this)
  /\ Stats.completed (getStats this') = Stats.completed (getStats this) + change
  /\ Stats.pending (getStats this') = Stats.pending (getStats this) - change.
Proof.
  unfold toggleTaskCompletion.
  destruct (list_find _ _) as [[index task]|] eqn:Hfind; [|done].
  intros [= <- <-]. apply list_find_Some in Hfind as (Hi & _ & _).
  pose proof (length_filter_insert (fun task => Task.completed task = true)
                _ _ _ (toggle now task) Hi) as Hlen.
  unfold getStats.
  cbn [tasks saveTasks Stats.total Stats.completed Stats.pending].
  rewrite length_insert. unfold toggle in *. cbn [Task.completed] in *.
  destruct (Task.completed task); simpl in *; lia.
Qed.

Lemma getStats_toggleTaskCompletion_witness :
  Stats.completed
    (getStats (toggleTaskCompletion (VNum 2) tuesday two_tasks).2)
  = Stats.completed (getStats two_tasks) + 1.
Proof.
  exact (proj1 (proj2 (getStats_toggleTaskCompletion (VNum 2) tuesday
                          two_tasks _ _ eq_refl))).
Defined.

(** ** What the store leaves alone *)

Lemma step_other_keys (o : op) (this : TaskManager) (key : string) :
  key <> "tasks"%string ->
  localStorage (step o this) !! key = localStorage this !! key.
Proof.
  intros Hkey.
  destruct o as [text date priority now|id now|id|]; simpl.
  - unfold addTask. destruct (trim text); [done|]. simpl.
    by rewrite lookup_insert_ne.
  - find_cases i t Hfind; [|done]. by rewrite lookup_insert_ne.
  - find_cases i t Hfind; [|done]. by rewrite lookup_insert_ne.
  - by rewrite lookup_insert_ne.
Qed.

(** X14. The store writes the item ["tasks"] of [localStorage] and no
    other: after any calls, every other key holds what it held before
    them. *)
Theorem session_other_keys (ops : list op) (this : TaskManager)
    (key : string) :
  key <> "tasks"%string ->
  localStorage (run ops this) !! key = localStorage this !! key.
Proof.
  intros Hkey. revert this.
  induction ops as [|o ops IH]; intros this; [done|].
  simpl. rewrite IH. by apply step_other_keys.
Qed.

Lemma session_other_keys_witness :
  localStorage (run scenario first_visit) !! "theme"%string
  = localStorage first_visit !! "theme"%string.
Proof. apply (session_other_keys scenario first_visit "theme"). done. Defined.

(** ** Where the tasks of the store come from *)

Lemma step_created (o : op) (this : TaskManager) (task' : Task) :
  task' ∈ tasks (step o this) ->
  (exists task, task ∈ tasks this /\ created task' = created task)
  \/ (exists text date priority now,
        o = AddTask text date priority now
        /\ Task.id task' = nextId this
        /\ Task.text task' = trim text
        /\ trim text <> []
        /\ Task.date task' = default_param date VNull
        /\ Task.priority task' = default_param priority (VStr (js "medium"))
        /\ Task.createdAt task' = now).
Proof.
  destruct o as [text date priority now|id now|id|]; simpl.
  - unfold addTask. destruct (trim text) as [|c r] eqn:Htrim; simpl.
    { left. by exists task'. }
    intros [H|H%list_elem_of_singleton]%elem_of_app.
    { left. by exists task'. }
    right. exists text, date, priority, now. subst task'. simpl.
    by rewrite Htrim.
  - find_cases i t Hfind; [|left; by exists task'].
    apply list_find_Some in Hfind as (Hi & _ & _).
    intros [j Hj]%list_elem_of_lookup. left.
    apply list_lookup_insert_Some in Hj as [(-> & <- & _)|[_ Hj]].
    + exists t. split; [|done]. by eapply list_elem_of_lookup_2.
    + exists task'. split; [|done]. by eapply list_elem_of_lookup_2.
  - find_cases i t Hfind; [|left; by exists task'].
    intros Hin. left. exists task'. split; [|done].
    eapply elem_of_sublist; [exact Hin|apply sublist_delete].
  - intros [_ Hin]%list_elem_of_filter. left. by exists task'.
Qed.

(** X15. No operation assigns the id, the text, the date, the priority or
    the time of creation of a task of the store: after any calls, a task of
    the store has these properties of a task that was there before the
    calls, or it was made by one of the calls of [addTask], with an id
    from the counter, the trimmed text, which is not empty, the date and
    the priority of the call or their defaults, and the time of the
    call. *)
Theorem session_created (ops : list op) (this : TaskManager) (task' : Task) :
  task' ∈ tasks (run ops this) ->
  (exists task, task ∈ tasks this /\ created task' = created task)
  \/ (exists text date priority now,
        AddTask text date priority now ∈ ops
        /\ nextId this <= Task.id task'
        /\ Task.text task' = trim text
        /\ trim text <> []
        /\ Task.date task' = default_param date VNull
        /\ Task.priority task' = default_param priority (VStr (js "medium"))
        /\ Task.createdAt task' = now).
Proof.
  revert this. induction ops as [|o ops IH]; intros this Hin.
  { left. by exists task'. }
  simpl in Hin. apply IH in Hin.
  pose proof (proj1 (step_counter o this)) as Hstep.
  destruct Hin as [(task1 & Hin1 & Heq1)|Hadd].
  - apply step_created in Hin1
      as [(task & Hin & Heq)|(text & date & priority & now & -> & Hnew)].
    + left. exists task. split; [done|congruence].
    + right. exists text, date, priority, now.
      unfold created in Heq1. injection Heq1 as -> -> -> -> ->.
      destruct Hnew as (Hid & Ht & Hne & Hd & Hp & Hc).
      split_and!; [apply elem_of_cons; by left|lia|done..].
  - destruct Hadd
      as (text & date & priority & now & Hin & Hid & Ht & Hne & Hd & Hp & Hc).
    right. exists text, date, priority, now.
    split_and!; [apply elem_of_cons; by right|lia|done..].
Qed.

Lemma session_created_witness :
  exists text date priority now,
    AddTask text date priority now ∈ scenario
    /\ Task.priority
         {| Task.id := 2; Task.text := js "Ship release";
            Task.completed := false; Task.date := VStr (js "2024-01-01");
            Task.priority := VStr (js "high"); Task.createdAt := monday;
            Task.completedAt := VUndefined |}
       = default_param priority (VStr (js "medium")).
Proof.
  destruct (session_created scenario first_visit
              {| Task.id := 2; Task.text := js "Ship release";
                 Task.completed := false; Task.date := VStr (js "2024-01-01");
                 Task.priority := VStr (js "high"); Task.createdAt := monday;
                 Task.completedAt := VUndefined |})
    as [(task & Hin & _)|(text & date & priority & now & Hin & _ & _ & _ & _ & Hp & _)].
  - vm_compute. apply elem_of_cons. right. apply elem_of_cons. by left.
  - by apply elem_of_nil in Hin.
  - by exists text, date, priority, now.
Defined.

(** ** The text of a task *)

Lemma trimStart_fixed (s : jsstring) (c : N) (r : jsstring) :
  s = c :: r -> isWhiteSpace c = false -> trimStart s = s.
Proof. intros -> Hc. simpl. by rewrite Hc. Qed.

Lemma trimStart_last (s : jsstring) (c : N) :
  isWhiteSpace c = false -> exists r, trimStart (s ++ [c]) = r ++ [c].
Proof.
  intros Hc. induction s as [|d s [r IH]]; simpl.
  - rewrite Hc. by exists [].
  - destruct (isWhiteSpace d); [by exists r|]. by exists (d :: s).
Qed.

Lemma trim_trim (s : jsstring) : trim (trim s) = trim s.
Proof.
  unfold trim, trimEnd. destruct (trimStart s) as [|c r] eqn:Hs; [done|].
  pose proof (trimStart_cons _ _ _ Hs) as Hc.
  cbn [rev]. destruct (trimStart_last (rev r) c Hc) as [b Hb].
  rewrite Hb, rev_app_distr. cbn [rev app].
  rewrite (trimStart_fixed (c :: rev b) c (rev b)) by done.
  cbn [rev]. rewrite rev_involutive.
  rewrite <- Hb.
  destruct (trimStart (rev r ++ [c])) as [|d b'] eqn:Hd.
  { by destruct b. }
  rewrite (trimStart_fixed (d :: b') d b' eq_refl (trimStart_cons _ _ _ Hd)).
  by rewrite Hb, rev_app_distr.
Qed.

(** X16. [addTask] stores texts that are not empty and that [trim] leaves
    as they are: when the texts of the store are such, they are such after
    any calls. *)
Theorem session_texts (ops : list op) (this : TaskManager) :
  Forall (fun task => Task.text task <> []
                      /\ trim (Task.text task) = Task.text task)
    (tasks this) ->
  Forall (fun task => Task.text task <> []
                      /\ trim (Task.text task) = Task.text task)
    (tasks (run ops this)).
Proof.
  revert this. induction ops as [|o ops IH]; intros this Hall; [done|].
  simpl. apply IH. apply Forall_forall. intros task' Hin.
  rewrite Forall_forall in Hall.
  apply step_created in Hin
    as [(task & Hin & Heq)|(text & ? & ? & ? & _ & _ & Htext & Hne & _)].
  - unfold created in Heq. injection Heq as _ -> _ _ _. by apply Hall.
  - rewrite Htext. split; [done|apply trim_trim].
Qed.

Lemma session_texts_witness :
  Forall (fun task => Task.text task <> []
                      /\ trim (Task.text task) = Task.text task)
    (tasks (run scenario first_visit)).
Proof. apply (session_texts scenario first_visit). constructor. Defined.

(** ** The class of a priority *)

Lemma number_to_string_head (n : Z) :
  exists c r, number_to_string n = c :: r
              /\ (c = 45 \/ 48 <= c <= 57)%N.
Proof.
  unfold number_to_string, NilZero.string_of_int.
  destruct (Z.to_int n) as [d|d].
  - destruct d; eexists _, _; (split; [reflexivity|]);
      change (N_of_ascii _) with 48%N || change (N_of_ascii _) with 49%N
      || change (N_of_ascii _) with 50%N || change (N_of_ascii _) with 51%N
      || change (N_of_ascii _) with 52%N || change (N_of_ascii _) with 53%N
      || change (N_of_ascii _) with 54%N || change (N_of_ascii _) with 55%N
      || change (N_of_ascii _) with 56%N || change (N_of_ascii _) with 57%N;
      lia.
  - eexists _, _. split; [reflexivity|]. left. reflexivity.
Qed.

Lemma getPriorityClass_number (n : Z) :
  getPriorityClass (VNum n) = Ok (js "priority-medium").
Proof.
  unfold getPriorityClass. cbn [ToString].
  destruct (number_to_string_head n) as (c & r & -> & Hc).
  assert (forall s : string, match js s with d :: _ => (96 < d)%N \/ d = 95%N | [] => True end ->
          js s <> c :: r) as Hne.
  { intros s Hs Heq. rewrite Heq in Hs. lia. }
  rewrite bool_decide_eq_false_2.
  - destruct (list_find _ _) as [[i [k class]]|] eqn:Hfind; [|done].
    apply list_find_Some in Hfind as (Hi & Hk & _). simpl in Hk. exfalso.
    destruct i as [|[|[|i]]]; simpl in Hi; try done;
      injection Hi as <- _; revert Hk; apply Hne; vm_compute; ((by left) || (by right)).
  - unfold Object_prototype_names. rewrite !fmap_cons, !elem_of_cons, fmap_nil, elem_of_nil.
    intros H. repeat (destruct H as [H|H]; [symmetry in H; revert H; apply Hne; vm_compute; ((by left) || (by right))|]).
    done.
Qed.

Lemma getPriorityClass_other (priority : value) :
  (forall s, priority <> VStr s) ->
  getPriorityClass priority = Ok (js "priority-medium").
Proof.
  intros Hs. destruct priority as [| |[]|n|s]; try reflexivity.
  - apply getPriorityClass_number.
  - by destruct (Hs s).
Qed.

(** X17. [getPriorityClass] names the class of the priorities high, medium
    and low, and gives the class of medium to every other value, except
    that for a string that is a name of [Object.prototype] the call does
    not return a class name; undefined, null, booleans and numbers have
    the class of medium. *)
Theorem getPriorityClass_spec (priority : value) :
  getPriorityClass (VStr (js "high")) = Ok (js "priority-high")
  /\ getPriorityClass (VStr (js "medium")) = Ok (js "priority-medium")
  /\ getPriorityClass (VStr (js "low")) = Ok (js "priority-low")
  /\ (priority <> VStr (js "high") -> priority <> VStr (js "low") ->
      ToString priority ∉ Object_prototype_names ->
      getPriorityClass priority = Ok (js "priority-medium"))
  /\ ((forall s, priority <> VStr s) ->
      getPriorityClass priority = Ok (js "priority-medium"))
  /\ (getPriorityClass priority = Unmodelled <->
      ToString priority ∈ Object_prototype_names).
Proof.
  split_and!; try reflexivity.
  - intros Hhigh Hlow Hproto.
    assert ((exists s, priority = VStr s) \/ (forall s, priority <> VStr s))
      as [[s ->]|Hs] by (destruct priority; eauto).
    + unfold getPriorityClass.
      rewrite (bool_decide_eq_false_2 _ Hproto).
      destruct (list_find _ _) as [[i [k class]]|] eqn:Hfind; [|done].
      apply list_find_Some in Hfind as (Hi & Hk & _). simpl in Hk.
      destruct i as [|[|[|i]]]; simpl in Hi; try done;
        injection Hi as <- <-; by subst.
    + by apply getPriorityClass_other.
  - apply getPriorityClass_other.
  - unfold getPriorityClass.
    destruct (list_find _ _) as [[i [k class]]|] eqn:Hfind.
    + apply list_find_Some in Hfind as (Hi & Hk & _). simpl in Hk.
      split; [done|]. rewrite <- Hk. intros Hin. exfalso.
      destruct i as [|[|[|i]]]; simpl in Hi; try done; injection Hi as <- _;
        refine (proj1 (bool_decide_eq_false _) _ Hin); vm_compute;
        reflexivity.
    + destruct (bool_decide _) eqn:Hb.
      * split; [|done]. intros _. by apply bool_decide_eq_true in Hb.
      * split; [done|]. intros Hin. by apply bool_decide_eq_false in Hb.
Qed.

Lemma getPriorityClass_spec_witness :
  getPriorityClass (VStr (js "urgent")) = Ok (js "priority-medium").
Proof.
  apply (proj1 (proj2 (proj2 (proj2
           (getPriorityClass_spec (VStr (js "urgent"))))))).
  - discriminate.
  - discriminate.
  - apply (bool_decide_unpack _). vm_compute. exact I.
Defined.

(** ** The form of the page that adds a task *)

(** X18. The [submit] handler lets no exception leave it.  For a text
    that is not empty when trimmed it shows the message of success, resets
    the form and sets the timer of the redirection; the new task is the
    last of the store, and its date and priority are the strings of the
    form as they are, also the empty string of a date that was not
    chosen.  When the tasks of the store and the counter are in the range
    that is read back, the store that the next page constructs from
    [localStorage] has the tasks of before and the new one.  For a text
    that is empty when trimmed the handler shows the message of the error
    as an error and leaves the state. *)
Theorem submit_spec (taskText taskDate taskPriority now : jsstring)
    (this : TaskManager) :
  (trim taskText <> [] ->
   exists task this',
     submit taskText taskDate taskPriority now this
     = Ok ([PreventDefault;
            ShowMessage (js "Task added successfully!") (js "success");
            FormReset;
            SetTimeout (SetLocation (js "tasks.html")) 1000], this')
     /\ tasks this' = tasks this ++ [task]
     /\ Task.text task = trim taskText
     /\ Task.date task = VStr taskDate
     /\ Task.priority task = VStr taskPriority
     /\ (Forall storable (tasks this) ->
         - MAX_SAFE_INTEGER <= nextId this <= MAX_SAFE_INTEGER ->
         exists next,
           new_TaskManager (localStorage this') = Ok next
           /\ tasks next = tasks this ++ [task]))
  /\ (trim taskText = [] ->
      submit taskText taskDate taskPriority now this
      = Ok ([PreventDefault;
             ShowMessage (js "Task text cannot be empty") (js "error")],
            this)).
Proof.
  unfold submit, addTask. cbn [default_param].
  destruct (trim taskText) as [|c r] eqn:Htrim; (split; [|done]); [done|].
  intros _. eexists _, _. split; [reflexivity|]. split_and!; try done.
  intros Hstorable Hid. eexists. split.
  - apply new_TaskManager_saveTasks. cbn [tasks].
    apply Forall_app. split; [done|]. repeat constructor; simpl; (done || lia).
  - done.
Qed.

Lemma submit_spec_witness :
  exists task this',
    submit (js " Call Ana ") (js "") (js "low") tuesday two_tasks
    = Ok ([PreventDefault;
           ShowMessage (js "Task added successfully!") (js "success");
           FormReset;
           SetTimeout (SetLocation (js "tasks.html")) 1000], this')
    /\ tasks this' = tasks two_tasks ++ [task]
    /\ Task.date task = VStr [].
Proof.
  destruct (proj1 (submit_spec (js " Call Ana ") (js "") (js "low") tuesday
                     two_tasks))
    as (task & this' & H1 & H2 & _ & H3 & _).
  - vm_compute. discriminate.
  - by exists task, this'.
Defined.

(** ** The button that clears the completed tasks *)

(** X19. When the question is answered with no, the [click] handler of the
    button leaves the state and shows no message.  When it is answered
    with yes, the message names the number of completed tasks that the
    statistics counted before, the timer of the reload is set, the
    pending tasks stay and no task is completed; when the tasks are in the
    range that is read back, the store that the reloaded page constructs
    from [localStorage] has no completed task. *)
Theorem clear_click_spec (this : TaskManager) :
  clear_click false this
  = ([Confirm (js "Are you sure you want to clear all completed tasks?")],
     this)
  /\ exists this',
       clear_click true this
       = ([Confirm (js "Are you sure you want to clear all completed tasks?");
           ShowMessage
             (js "Cleared "
              ++ number_to_string (Stats.completed (getStats this))
              ++ js " completed tasks")
             (js "success");
           SetTimeout Reload 1000], this')
       /\ tasks this' = getPendingTasks this
       /\ getCompletedTasks this' = []
       /\ (Forall storable (tasks this) ->
           exists next,
             new_TaskManager (localStorage this') = Ok next
             /\ tasks next = getPendingTasks this
             /\ getCompletedTasks next = []).
Proof.
  split; [done|]. unfold clear_click, clearCompletedTasks. eexists.
  split; [reflexivity|]. cbn [tasks saveTasks]. split_and!.
  - done.
  - apply filter_completed_pending.
  - intros Hstorable. eexists. split; [|split].
    + apply new_TaskManager_saveTasks. cbn [tasks].
      apply Forall_forall. intros task [_ Hin]%list_elem_of_filter.
      rewrite Forall_forall in Hstorable. by apply Hstorable.
    + done.
    + apply filter_completed_pending.
Qed.

Lemma clear_click_spec_witness :
  exists this' next,
    new_TaskManager (localStorage this') = Ok next
    /\ tasks next = getPendingTasks two_tasks
    /\ getCompletedTasks next = [].
Proof.
  destruct (proj2 (clear_click_spec two_tasks)) as (this' & _ & _ & _ & H).
  destruct (H storable_two_tasks) as (next & Hnext).
  by exists this', next.
Defined.

(** ** The two ways to toggle a task on a page *)

Lemma toggled_lookup (this : TaskManager) (index : nat) (task : Task)
    (now : jsstring) :
  NoDup (Task.id <$> tasks this) -> tasks this !! index = Some task ->
  let this' := (toggleTaskCompletion (VNum (Task.id task)) now this).2 in
  tasks this' !! index = Some (toggle now task)
  /\ list_find (fun t => VNum (Task.id t) = VNum (Task.id (toggle now task)))
       (getAllTasks this')
     = Some (index, toggle now task).
Proof.
  intros Hnd Hi. rewrite (toggleTaskCompletion_found _ _ _ _ Hnd Hi).
  cbn [snd tasks saveTasks getAllTasks].
  assert (<[index := toggle now task]> (tasks this) !! index
          = Some (toggle now task)) as Hi'.
  { apply list_lookup_insert_eq. by eapply lookup_lt_Some. }
  split; [done|]. apply find_unique_id; [|done].
  by rewrite ids_insert_toggle.
Qed.

(** X20. In a store whose ids are unique, the checkbox and the button of a
    task make the same call of [toggleTaskCompletion], but they do not
    show the same: the button shows the state that the task has after the
    call and the checkbox shows the opposite.  For the task that the call
    completed the button strikes the text through and says that the task
    is complete, and the checkbox removes the line and says that the task
    is pending; the handler of the checkbox reads [task.completed] of the
    object of the store, which the call has changed already. *)
Theorem checkbox_shows_opposite (index : nat) (on_tasks_page : bool)
    (now : jsstring) (this : TaskManager) (task : Task) :
  NoDup (Task.id <$> tasks this) ->
  tasks this !! index = Some task ->
  let this' := (toggleTaskCompletion (VNum (Task.id task)) now this).2 in
  let completed := negb (Task.completed task) in
  tasks this' !! index = Some (toggle now task)
  /\ Task.completed (toggle now task) = completed
  /\ checkbox_change index on_tasks_page now this
     = Some ([TaskItem_classList_toggle (js "completed") None;
              TaskText_textDecoration
                (if completed then js "none" else js "line-through");
              ShowMessage
                (if completed then js "Task marked as pending"
                 else js "Task completed!")
                (js "success")]
             ++ renderStats_on on_tasks_page this', this')
  /\ complete_click index on_tasks_page now this
     = Some ([TaskItem_classList_toggle (js "completed") (Some completed);
              TaskText_textDecoration
                (if completed then js "line-through" else js "none");
              CompleteBtn_textContent
                (if completed then js "Undo Complete" else js "Mark Complete");
              CompleteBtn_className
                (if completed then js "btn btn-warning"
                 else js "btn btn-success");
              ShowMessage
                (if completed then js "Task marked as complete!"
                 else js "Task marked as pending")
                (js "success")]
             ++ renderStats_on on_tasks_page this', this').
Proof.
  intros Hnd Hi this' completed.
  destruct (toggled_lookup this index task now Hnd Hi) as [Hi' Hfind].
  fold this' in Hi', Hfind.
  split_and!; [done|done| |].
  - unfold checkbox_change. rewrite Hi. cbn [mbind option_bind].
    fold this'. rewrite Hi'. done.
  - unfold complete_click. rewrite Hi. cbn [mbind option_bind].
    fold this'. rewrite Hi'. cbn [mbind option_bind].
    rewrite Hfind. done.
Qed.

Lemma checkbox_shows_opposite_witness :
  checkbox_change 1 true tuesday two_tasks
  = Some ([TaskItem_classList_toggle (js "completed") None;
           TaskText_textDecoration (js "none");
           ShowMessage (js "Task marked as pending") (js "success")]
          ++ renderStats_on true
               (toggleTaskCompletion (VNum 2) tuesday two_tasks).2,
          (toggleTaskCompletion (VNum 2) tuesday two_tasks).2).
Proof.
  refine (proj1 (proj2 (proj2 (checkbox_shows_opposite 1 true tuesday two_tasks
            {| Task.id := 2; Task.text := js "Ship release";
               Task.completed := false; Task.date := VStr (js "2024-01-01");
               Task.priority := VStr (js "high"); Task.createdAt := monday;
               Task.completedAt := VUndefined |} _ eq_refl)))).
  apply (bool_decide_unpack _). vm_compute. exact I.
Defined.

(** ** More on the tasks of a session *)

Lemma length_filter_delete {A} (P : A -> Prop) `{!forall x, Decision (P x)}
    (l : list A) (i : nat) (x : A) :
  l !! i = Some x ->
  (length (filter P (delete i l)) + (if decide (P x) then 1 else 0)
   = length (filter P l))%nat.
Proof.
  revert i. induction l as [|z l IH]; intros [|i] Hi; try done.
  - injection Hi as ->. simpl. rewrite filter_cons.
    destruct (decide (P x)); simpl; lia.
  - simpl in *. rewrite !filter_cons. specialize (IH i Hi).
    destruct (decide (P z)); simpl; lia.
Qed.

(** X21. When [deleteTask] returns a task, the statistics count one task
    less; the task is taken from the completed ones when it was completed
    and from the pending ones when it was not. *)
Theorem getStats_deleteTask (id : value) (this : TaskManager)
    (deleted : Task) (this' : TaskManager) :
  deleteTask id this = (Some deleted, this') ->
  Stats.total (getStats this') = Stats.total (getStats this) - 1
  /\ Stats.completed (getStats this')
     = Stats.completed (getStats this)
       - (if Task.completed deleted then 1 else 0)
  /\ Stats.pending (getStats this')
     = Stats.pending (getStats this)
       - (if Task.completed deleted then 0 else 1).
Proof.
  intros (index & Hfind & ->)%deleteTask_inv.
  apply list_find_Some in Hfind as (Hi & _ & _).
  pose proof (length_filter_delete (fun task => Task.completed task = true)
                _ _ _ Hi) as Hlen.
  pose proof (lookup_lt_Some _ _ _ Hi) as Hlt.
  unfold getStats.
  cbn [tasks saveTasks Stats.total Stats.completed Stats.pending].
  rewrite length_delete by eauto.
  destruct (decide (Task.completed deleted = true)) as [Hc|Hc].
  - rewrite Hc. lia.
  - destruct (Task.completed deleted); [done|]. lia.
Qed.

Lemma getStats_deleteTask_witness :
  Stats.total (getStats (deleteTask (VNum 1) two_tasks).2)
  = Stats.total (getStats two_tasks) - 1.
Proof.
  exact (proj1 (getStats_deleteTask (VNum 1) two_tasks _ _ eq_refl)).
Defined.

(** X22. The operations keep [completedAt] in step with [completed]: when
    every completed task of the store has the time of its completion and
    every pending task has none ([undefined] or [null]), this holds after
    any calls. *)
Theorem session_completedAt (ops : list op) (this : TaskManager) :
  Forall completedAt_set (tasks this) ->
  Forall completedAt_set (tasks (run ops this)).
Proof.
  revert this. induction ops as [|o ops IH]; intros this Hall; [done|].
  simpl. apply IH. apply Forall_forall. intros task' Hin.
  rewrite Forall_forall in Hall.
  apply step_tasks in Hin
    as [Hin|[(? & ? & ? & ? & _ & Hc & Hat)|(id & now & task & _ & _ & _ & ->)]].
  - by apply Hall.
  - unfold completedAt_set. rewrite Hc. by left.
  - unfold completedAt_set, toggle. cbn [Task.completed Task.completedAt].
    destruct (negb (Task.completed task)); [by exists now|by right].
Qed.

Lemma session_completedAt_witness :
  Forall completedAt_set (tasks (run scenario first_visit)).
Proof. apply (session_completedAt scenario first_visit). constructor. Defined.

(** ** The page of the tasks *)

Lemma split_pop_suffix (s : jsstring) :
  exists dir, s = dir ++ split_pop s
              /\ (dir = [] \/ exists d, dir = d ++ [47%N])
              /\ (47%N ∉ split_pop s).
Proof.
  unfold split_pop.
  assert (forall segment dir,
            (47%N ∉ segment) -> (dir = [] \/ exists d, dir = d ++ [47%N]) ->
            exists dir',
              dir ++ segment ++ s
              = dir' ++ foldl (fun segment c => if (c =? 47)%N then []
                                                else segment ++ [c]) segment s
              /\ (dir' = [] \/ exists d, dir' = d ++ [47%N])
              /\ (47%N ∉ foldl (fun segment c => if (c =? 47)%N then []
                                               else segment ++ [c]) segment s))
    as H.
  { induction s as [|c s IH]; intros segment dir Hseg Hdir; simpl.
    - exists dir. by rewrite app_nil_r.
    - destruct (N.eqb_spec c 47) as [->|Hc].
      + destruct (IH [] (dir ++ segment ++ [47%N])) as (dir' & Heq & H').
        * apply not_elem_of_nil.
        * right. exists (dir ++ segment). by rewrite <- app_assoc.
        * exists dir'. split; [|done]. rewrite <- Heq.
          by rewrite <- !app_assoc.
      + destruct (IH (segment ++ [c]) dir) as (dir' & Heq & H').
        * rewrite elem_of_app, list_elem_of_singleton. intros [?|?]; [done|].
          by subst.
        * done.
        * exists dir'. split; [|done]. rewrite <- Heq.
          by rewrite <- !app_assoc. }
  destruct (H [] []) as (dir & Heq & H'); [apply not_elem_of_nil|by left|].
  by exists dir.
Qed.

Lemma includes_prefix (s sub : jsstring) :
  sub `prefix_of` s -> includes s sub = true.
Proof.
  intros H. destruct s; simpl; by rewrite (bool_decide_eq_true_2 _ H).
Qed.

Lemma includes_app (dir sub : jsstring) : includes (dir ++ sub) sub = true.
Proof.
  induction dir as [|c dir IH]; [by apply includes_prefix|].
  simpl. rewrite IH. by destruct (bool_decide _).
Qed.

(** X23. The page that the handler of [DOMContentLoaded] initialises as
    the page of the tasks is one whose pathname ends in the segment
    [tasks.html]; its pathname includes [tasks.html], which is what the
    handlers of a task ask before they render the statistics again, so on
    this page they render them.  A pathname can include [tasks.html] and
    be no page of the tasks. *)
Theorem DOMContentLoaded_tasks (pathname : jsstring) :
  (DOMContentLoaded pathname = Some initTasks <->
   exists dir, pathname = dir ++ js "tasks.html"
               /\ (dir = [] \/ exists d, dir = d ++ [47%N]))
  /\ (DOMContentLoaded pathname = Some initTasks ->
      includes pathname (js "tasks.html") = true
      /\ forall this,
           renderStats_on (includes pathname (js "tasks.html")) this
           = [RenderStats (getStats this)])
  /\ includes (js "/my-tasks.html") (js "tasks.html") = true
  /\ DOMContentLoaded (js "/my-tasks.html") = None.
Proof.
  assert (DOMContentLoaded pathname = Some initTasks ->
          exists dir, pathname = dir ++ js "tasks.html"
                      /\ (dir = [] \/ exists d, dir = d ++ [47%N])) as Hdir.
  { unfold DOMContentLoaded.
    destruct (split_pop_suffix pathname) as (dir & Heq & Hd & _).
    destruct (decide (split_pop pathname = js "index.html")); [done|].
    destruct (decide (split_pop pathname = [])); [done|].
    destruct (decide (split_pop pathname = js "add-task.html")); [done|].
    destruct (decide (split_pop pathname = js "tasks.html")) as [Hp|];
      [|by destruct (decide _)].
    intros _. exists dir. by rewrite <- Hp. }
  split_and!.
  - split; [done|]. intros (dir & -> & Hd).
    assert (split_pop (dir ++ js "tasks.html") = js "tasks.html") as Hp.
    { unfold split_pop. rewrite foldl_app.
      destruct Hd as [->|[d ->]]; [done|].
      rewrite foldl_app. done. }
    unfold DOMContentLoaded. rewrite Hp. done.
  - intros (dir & -> & _)%Hdir. rewrite includes_app. done.
  - vm_compute. reflexivity.
  - vm_compute. reflexivity.
Qed.

Lemma DOMContentLoaded_tasks_witness :
  includes (js "/todo/tasks.html") (js "tasks.html") = true.
Proof.
  exact (proj1 (proj1 (proj2 (DOMContentLoaded_tasks (js "/todo/tasks.html")))
                  eq_refl)).
Defined.
